(** * A shallow embedding of [lab3.py]: a regular-expression automaton

    The Python module builds, from a pattern over ASCII literals, ['.'],
    ['*'] and ['+'], a graph of [State] objects ([RegexFSM.__init__]) and
    decides acceptance of an input string by a depth-first search with a
    visited set ([RegexFSM.check_string]).

    Python objects are mutable and shared, so the objects live in a store
    (a list of [State] records) and are referred to by their index, which
    plays the role of [id(state)].  Exceptions are explicit results. *)

From Stdlib Require Import String Ascii NArith.
From stdpp Require Import base list gmap sets.

#[local] Set Warnings "-clear-no-such-hyp".

Local Open Scope N_scope.
Local Open Scope nat_scope.

(** ** Characters and strings *)

(** A Python character is a Unicode code point. *)
Abbreviation char := N (only parsing).
Abbreviation str := (list N) (only parsing).

(** [str.isascii()] of a one-character string. *)
Definition isascii (c : char) : bool := (c <? 128)%N.

(** Reading a Rocq string literal (bytes) as a Python string. *)
Definition of_string (s : string) : str :=
  map N_of_ascii (list_ascii_of_string s).

Definition chr_star : char := 42%N.
Definition chr_plus : char := 43%N.
Definition chr_dot : char := 46%N.

(** ** States *)

(** The six concrete subclasses of [State].  [checking_state] of a
    [StarState] or [PlusState] is only ever used through [check_self],
    which reads nothing but the class and [curr_sym] of the wrapped state;
    both are fixed at creation, so the wrapped state is kept by its class. *)
Inductive state_class : Type :=
| StartState
| TerminationState
| DotState
| AsciiState (curr_sym : char)
| StarState (checking_state : state_class)
| PlusState (checking_state : state_class).

Fixpoint check_self (k : state_class) (c : char) : bool :=
  match k with
  | StartState => true
  | TerminationState => false
  | DotState => true
  | AsciiState curr_sym => bool_decide (c = curr_sym)
  | StarState checking_state => check_self checking_state c
  | PlusState checking_state => check_self checking_state c
  end.

(** [isinstance(s, TerminationState)]. *)
Definition is_termination (k : state_class) : bool :=
  match k with TerminationState => true | _ => false end.

(** A reference to a state object: its index in the store. *)
Abbreviation ref := nat (only parsing).

Record State : Type := mkState {
  kind : state_class;
  next_states : list ref
}.

#[export] Instance State_inhabited : Inhabited State :=
  populate (mkState TerminationState []).

(** ** The object store *)

Abbreviation Store := (list State) (only parsing).

(** Creating an object: it gets the next free index. *)
Definition alloc (st : State) (h : Store) : ref * Store :=
  (length h, h ++ [st]).

(** [r.next_states.extend(xs)]; [append(x)] is [extend([x])]. *)
Definition extend_next (r : ref) (xs : list ref) (h : Store) : Store :=
  alter (λ st, mkState (kind st) (next_states st ++ xs)) r h.

(** ** Exceptions *)

Inductive exn : Type :=
| ValueError (msg : string)
| IndexError
| RecursionError.

#[export] Instance exn_ret : MRet (sum exn) := λ _ x, inr x.
#[export] Instance exn_bind : MBind (sum exn) := λ _ _ f m,
  match m with
  | inl e => inl e
  | inr x => f x
  end.

(** Python's [l[-k]] for [k >= 1]. *)
Definition index_neg {A} (l : list A) (k : nat) : exn + A :=
  if decide (k ≤ length l) then
    match l !! (length l - k) with
    | Some x => inr x
    | None => inl IndexError
    end
  else inl IndexError.

(** ** Automaton Builder: [RegexFSM.__init__] *)

Record RegexFSM : Type := mkFSM {
  store : Store;
  start_state : ref;
  states : list ref
}.

(** One iteration of the [while] loop, on the character [regex_expr[i]]. *)
Definition step (c : char) (self : RegexFSM) : exn + RegexFSM :=
  if isascii c && negb (bool_decide (c ∈ [chr_star; chr_plus; chr_dot])) then
    let '(new_state, h) := alloc (mkState (AsciiState c) []) (store self) in
    last_state ← index_neg (states self) 1;
    mret (mkFSM (extend_next last_state [new_state] h)
                (start_state self) (states self ++ [new_state]))
  else if bool_decide (c = chr_dot) then
    let '(new_state, h) := alloc (mkState DotState []) (store self) in
    last_state ← index_neg (states self) 1;
    mret (mkFSM (extend_next last_state [new_state] h)
                (start_state self) (states self ++ [new_state]))
  else if bool_decide (c = chr_star) then
    base_state ← index_neg (states self) 1;
    let h := store self in
    let '(star_state, h) :=
      alloc (mkState (StarState (kind (h !!! base_state))) [length h]) h in
    let h := extend_next star_state (next_states (h !!! base_state)) h in
    let h := extend_next base_state (next_states (h !!! star_state)) h in
    pred_state ← index_neg (states self) 2;
    mret (mkFSM (extend_next pred_state [star_state] h)
                (start_state self) (states self ++ [star_state]))
  else if bool_decide (c = chr_plus) then
    base_state ← index_neg (states self) 1;
    let h := store self in
    let '(plus_state, h) :=
      alloc (mkState (PlusState (kind (h !!! base_state))) [length h]) h in
    let h := extend_next plus_state (next_states (h !!! base_state)) h in
    pred_state ← index_neg (states self) 2;
    mret (mkFSM (extend_next pred_state [plus_state] h)
                (start_state self) (states self ++ [plus_state]))
  else inl (ValueError "Invalid character").

(** The [while i < len(regex_expr)] loop: every branch that does not raise
    ends with [i += 1], so the loop visits the characters in order. *)
Fixpoint while_loop (regex_expr : str) (self : RegexFSM) : exn + RegexFSM :=
  match regex_expr with
  | [] => inr self
  | c :: rest => self' ← step c self; while_loop rest self'
  end.

(** The object before the loop: the store holds the start state only. *)
Definition init_fsm : RegexFSM :=
  let '(start, h) := alloc (mkState StartState []) [] in
  mkFSM h start [start].

(** After the loop: the termination state is attached to the last state. *)
Definition finish (self : RegexFSM) : exn + RegexFSM :=
  let '(termination, h) := alloc (mkState TerminationState []) (store self) in
  last_state ← index_neg (states self) 1;
  mret (mkFSM (extend_next last_state [termination] h)
              (start_state self) (states self)).

Definition compile (regex_expr : str) : exn + RegexFSM :=
  self ← while_loop regex_expr init_fsm; finish self.

(** ** Matcher: [RegexFSM.check_string] *)

(** The result of a run that may raise.  The recursion of the model is
    bounded by a number of nested calls; [OutOfFuel] says that one call more
    was needed. *)
Inductive result (A : Type) : Type :=
| Return (a : A)
| Raise (e : exn)
| OutOfFuel.
Arguments Return {A} a.
Arguments Raise {A} e.
Arguments OutOfFuel {A}.

Section matcher.
Variable h : Store.
Variable input_string : str.

(** The [for next_state in state.next_states] loop of [dfs]; [rec] is the
    recursive call, [visited] the set shared by all calls. *)
Fixpoint for_next (rec : ref → nat → gset (ref * nat) → result (bool * gset (ref * nat)))
    (idx : nat) (ns : list ref) (visited : gset (ref * nat))
    : result (bool * gset (ref * nat)) :=
  match ns with
  | [] => Return (false, visited)
  | next_state :: rest =>
    match input_string !! idx with
    | None => Raise IndexError
    | Some c =>
      if check_self (kind (h !!! next_state)) c then
        match rec next_state (idx + 1) visited with
        | Return (true, visited) => Return (true, visited)
        | Return (false, visited) => for_next rec idx rest visited
        | Raise e => Raise e
        | OutOfFuel => OutOfFuel
        end
      else
        match rec next_state idx visited with
        | Return (true, visited) => Return (true, visited)
        | Return (false, visited) => for_next rec idx rest visited
        | Raise e => Raise e
        | OutOfFuel => OutOfFuel
        end
    end
  end.

(** The inner function [dfs].  Python's [visited] is one set shared by all
the calls of a [check_string]; here each call takes it and returns it.
[fuel] bounds the depth of the recursion. *)
Fixpoint dfs (fuel : nat) (state : ref) (idx : nat) (visited : gset (ref * nat))
    : result (bool * gset (ref * nat)) :=
  match fuel with
  | 0 => OutOfFuel
  | S fuel =>
    if decide ((state, idx) ∈ visited) then Return (false, visited)
    else
      let visited := {[ (state, idx) ]} ∪ visited in
      if decide (idx = length input_string) then
        Return (existsb (λ s, is_termination (kind (h !!! s)))
                        (next_states (h !!! state)), visited)
      else for_next (dfs fuel) idx (next_states (h !!! state)) visited
  end.
End matcher.

(** A recursion budget that is always enough: one frame per pair of a state
    and a position, plus one. *)
Definition budget (h : Store) (input_string : str) : nat :=
  length h * (length input_string + 1) + 1.

(** The answer of [check_string], that is, what a call returns when the
    interpreter lets the recursion of [dfs] go as deep as it needs. *)
Definition check_string (self : RegexFSM) (input_string : str) : result bool :=
  match dfs (store self) input_string (budget (store self) input_string)
            (start_state self) 0 ∅ with
  | Return (b, _) => Return b
  | Raise e => Raise e
  | OutOfFuel => OutOfFuel
  end.

(** [check_string] under the recursion limit of the interpreter.  [dfs] is
    a recursive Python function and nothing in [check_string] catches an
    exception: when the interpreter has room for [limit] nested calls of
    [dfs], the call that would be nested one deeper raises [RecursionError],
    which ends [check_string].  The frames of [check_self] and of the
    generator of [any] are not counted; they can only make the error come
    earlier. *)
Definition check_string_limited (limit : nat) (self : RegexFSM) (input_string : str)
    : result bool :=
  match dfs (store self) input_string limit (start_state self) 0 ∅ with
  | Return (b, _) => Return b
  | Raise e => Raise e
  | OutOfFuel => Raise RecursionError
  end.

(** * Vocabulary of the properties *)

(** ** Well-formed stores and search configurations *)

(** Every reference held by a state of the store points into the store. *)
Definition store_wf (h : Store) : Prop :=
  ∀ r x, r < length h → x ∈ next_states (h !!! r) → x < length h.

(** The pairs of a state and a position the search can reach. *)
Definition configs (h : Store) (s : str) : gset (ref * nat) :=
  list_to_set (r ← seq 0 (length h); (λ i, (r, i)) <$> seq 0 (S (length s))).

(** ** Invariants of the builder *)

(** What holds of the object after any number of loop iterations: [states]
    lists every state created so far, in order of creation (the termination
    state does not exist yet); every state but the last one either has a
    successor or is the state wrapped by the [PlusState] created right
    after it. *)
Record fsm_inv (self : RegexFSM) : Prop := {
  inv_states : states self = seq 0 (length (store self));
  inv_nonempty : 0 < length (store self);
  inv_start : start_state self = 0;
  inv_wf : store_wf (store self);
  inv_no_term : ∀ r, r < length (store self) →
    kind (store self !!! r) ≠ TerminationState;
  inv_out : ∀ r, S r < length (store self) →
    next_states (store self !!! r) ≠ [] ∨
    kind (store self !!! S r) = PlusState (kind (store self !!! r))
}.

(** What [RegexFSM.__init__] guarantees of the object it returns. *)
Record compiled (self : RegexFSM) : Prop := {
  c_start : start_state self = 0;
  c_len : 2 ≤ length (store self);
  c_wf : store_wf (store self);
  c_term_kind :
    kind (store self !!! (length (store self) - 1)) = TerminationState;
  c_term_next : next_states (store self !!! (length (store self) - 1)) = [];
  c_term_unique : ∀ r, r < length (store self) →
    kind (store self !!! r) = TerminationState → r = length (store self) - 1;
  c_out : ∀ r, S r < length (store self) →
    next_states (store self !!! r) ≠ [] ∨
    kind (store self !!! S r) = PlusState (kind (store self !!! r))
}.

(** ** Patterns without operators *)

(** The state created for a literal or for ['.']. *)
Definition atom (c : char) : state_class :=
  if bool_decide (c = chr_dot) then DotState else AsciiState c.

(** ASCII characters other than ['*'] and ['+']. *)
Definition plain (p : str) : Prop :=
  Forall (λ c, isascii c = true ∧ c ≠ chr_star ∧ c ≠ chr_plus) p.

(** The store built for such a pattern is a chain: the state at index [n],
    of class [k], followed by the states of [p] and the termination state. *)
Fixpoint chain (n : nat) (k : state_class) (p : str) : Store :=
  match p with
  | [] => [mkState k [S n]; mkState TerminationState []]
  | c :: p => mkState k [S n] :: chain (S n) (atom c) p
  end.

(** What the search computes on a chain: a pattern position whose state
    rejects the current character is passed without consuming it. *)
Fixpoint walk (p s : str) : bool :=
  match p, s with
  | [], [] => true
  | [], _ :: _ => false
  | _ :: _, [] => false
  | q :: p', c :: s' => if check_self (atom q) c then walk p' s' else walk p' s
  end.

(** [s] has the length of [p] and agrees with it at every position that is
    not ['.']. *)
Definition matches_exactly (p s : str) : Prop :=
  length s = length p ∧
  ∀ i q c, p !! i = Some q → s !! i = Some c → q = chr_dot ∨ c = q.

(** ** Concrete automata *)

(** The letter [a]. *)
Definition chr_a : char := 97%N.

(** The automaton of [a*]: start, [a], the star state and termination. *)
Definition star_a_fsm : RegexFSM :=
  mkFSM [ mkState StartState [1; 2];
          mkState (AsciiState chr_a) [2];
          mkState (StarState (AsciiState chr_a)) [2; 3];
          mkState TerminationState [] ]
        0 [0; 1; 2].

(** The automaton of [a+]. *)
Definition plus_a_fsm : RegexFSM :=
  mkFSM [ mkState StartState [1; 2];
          mkState (AsciiState chr_a) [];
          mkState (PlusState (AsciiState chr_a)) [2; 3];
          mkState TerminationState [] ]
        0 [0; 1; 2].

(** The automaton of [a*4.+hi], the pattern of the module's doctest. *)
Definition demo_fsm : RegexFSM :=
  mkFSM [ mkState StartState [1; 2];
          mkState (AsciiState chr_a) [2];
          mkState (StarState (AsciiState chr_a)) [2; 3];
          mkState (AsciiState 52%N) [4; 5];
          mkState DotState [];
          mkState (PlusState DotState) [5; 6];
          mkState (AsciiState 104%N) [7];
          mkState (AsciiState 105%N) [8];
          mkState TerminationState [] ]
        0 [0; 1; 2; 3; 4; 5; 6; 7].

(** ** Shape of the store *)

(** The class of the state created for the pattern character [c], [k]
    being the class of the last state created before it. *)
Definition class_for (c : char) (k : state_class) : state_class :=
  if bool_decide (c = chr_star) then StarState k
  else if bool_decide (c = chr_plus) then PlusState k
  else atom c.

(** The classes [StarState] and [PlusState]. *)
Definition is_repeat (k : state_class) : bool :=
  match k with
  | StarState _ | PlusState _ => true
  | _ => false
  end.

(** [g] is [h] with one more state: the classes are kept, edges are only
    appended, and a new edge goes to the new state or where an edge of [h]
    already went. *)
Definition extends (h g : Store) : Prop :=
  length g = S (length h) ∧
  (∀ j, j < length h → kind (g !!! j) = kind (h !!! j)) ∧
  (∀ j, j < length h → next_states (h !!! j) `prefix_of` next_states (g !!! j)) ∧
  (∀ j x, x ∈ next_states (g !!! j) →
     x = length h ∨ ∃ j', j' < length h ∧ x ∈ next_states (h !!! j')).

(** The pattern begins with ['*'] or ['+']. *)
Definition starts_with_operator (p : str) : Prop :=
  head p = Some chr_star ∨ head p = Some chr_plus.

(** ** What the search looks for *)

(** An accepting run from the state [state] at position [idx]: a sequence
    of edges, each consuming the current character when its target accepts
    it and none otherwise, that ends at the end of the input in a state
    with an edge to a termination state. *)
Inductive accepting (h : Store) (s : str) : nat → nat → Prop :=
| acc_end state :
    existsb (λ t, is_termination (kind (h !!! t))) (next_states (h !!! state)) = true →
    accepting h s state (length s)
| acc_step state idx c next_state :
    s !! idx = Some c →
    next_state ∈ next_states (h !!! state) →
    accepting h s next_state
      (if check_self (kind (h !!! next_state)) c then idx + 1 else idx) →
    accepting h s state idx.

(** The pairs marked between [visited] and [visited'] are dead ends: none
    is at the end of the input with an edge to a termination state, and
    every move from one of them leads to a pair of [visited']. *)
Definition explored (h : Store) (s : str) (visited visited' : gset (nat * nat)) : Prop :=
  ∀ state idx, (state, idx) ∈ visited' → (state, idx) ∉ visited →
    (idx = length s →
     existsb (λ t, is_termination (kind (h !!! t))) (next_states (h !!! state)) = false) ∧
    (∀ c next_state, s !! idx = Some c → next_state ∈ next_states (h !!! state) →
       (next_state, if check_self (kind (h !!! next_state)) c then idx + 1 else idx)
         ∈ visited').

(** * Properties *)

(** ** Unfolding equations *)

Lemma dfs_S h s fuel state idx visited :
  dfs h s (S fuel) state idx visited =
    if decide ((state, idx) ∈ visited) then Return (false, visited)
    else
      if decide (idx = length s) then
        Return (existsb (λ r, is_termination (kind (h !!! r)))
                        (next_states (h !!! state)),
                {[ (state, idx) ]} ∪ visited)
      else for_next h s (dfs h s fuel) idx (next_states (h !!! state))
                    ({[ (state, idx) ]} ∪ visited).
Proof. reflexivity. Qed.

Lemma for_next_nil h s rec idx visited :
  for_next h s rec idx [] visited = Return (false, visited).
Proof. reflexivity. Qed.

(** One turn of the loop, once the character and the outcome of the
    recursive call are known. *)
Lemma for_next_cons h s rec idx next_state rest visited c b visited' :
  s !! idx = Some c →
  rec next_state (if check_self (kind (h !!! next_state)) c then idx + 1 else idx)
      visited = Return (b, visited') →
  for_next h s rec idx (next_state :: rest) visited =
    if b then Return (true, visited') else for_next h s rec idx rest visited'.
Proof.
  intros Hc Hrec. simpl. rewrite Hc.
  destruct (check_self (kind (h !!! next_state)) c); rewrite Hrec; by destruct b.
Qed.

(** ** The search terminates *)

Lemma elem_of_configs h s r i :
  (r, i) ∈ configs h s ↔ r < length h ∧ i ≤ length s.
Proof.
  unfold configs. rewrite elem_of_list_to_set, list_elem_of_bind. split.
  - intros (r' & Hin & Hr'). apply list_elem_of_fmap in Hin as (i' & [= -> ->] & Hi').
    apply elem_of_seq in Hr', Hi'. lia.
  - intros [Hr Hi]. exists r. split.
    + apply list_elem_of_fmap. exists i. split; [done|]. apply elem_of_seq. lia.
    + apply elem_of_seq. lia.
Qed.

Lemma size_list_to_set_le (l : list (ref * nat)) :
  size (list_to_set l : gset (ref * nat)) ≤ length l.
Proof.
  induction l as [|x l IH].
  - by rewrite list_to_set_nil, size_empty.
  - rewrite list_to_set_cons, size_union_alt, size_singleton.
    assert (size (list_to_set l ∖ {[x]} : gset (ref * nat)) ≤ size (list_to_set l : gset (ref * nat)))
      as Hle.
    { apply subseteq_size. intros y Hy. by apply elem_of_difference in Hy as [? _]. }
    simpl. lia.
Qed.

Lemma length_pairs (m n j : nat) :
  length (r ← seq j m; (λ i, (r, i)) <$> seq 0 n) = m * n.
Proof.
  revert j. induction m as [|m IH]; intros j; [done|].
  cbn [seq]. rewrite bind_cons, length_app, length_fmap, length_seq, IH. lia.
Qed.

Lemma size_configs h s : size (configs h s) ≤ length h * (length s + 1).
Proof.
  unfold configs. etrans; [apply size_list_to_set_le|].
  rewrite length_pairs. lia.
Qed.

Section termination.
Variable h : Store.
Variable s : str.
Hypothesis Hwf : store_wf h.

(** The loop returns as soon as every recursive call does, and the visited
    set only grows. *)
Lemma for_next_returns rec idx ns visited0 :
  idx < length s →
  (∀ state idx' visited, state < length h → idx' ≤ length s →
     visited0 ⊆ visited →
     ∃ b visited', rec state idx' visited = Return (b, visited') ∧ visited ⊆ visited') →
  ∀ visited, Forall (λ r, r < length h) ns → visited0 ⊆ visited →
  ∃ b visited', for_next h s rec idx ns visited = Return (b, visited') ∧
                visited ⊆ visited'.
Proof.
  intros Hidx Hrec. induction ns as [|n ns IH]; intros visited Hns Hsub.
  - exists false, visited. done.
  - apply Forall_cons in Hns as [Hn Hns].
    destruct (lookup_lt_is_Some_2 s idx Hidx) as [c Hc].
    destruct (Hrec n (if check_self (kind (h !!! n)) c then idx + 1 else idx) visited)
      as (b & v' & Hcall & Hv'); [done| destruct (check_self _ _); lia |done|].
    rewrite (for_next_cons _ _ _ _ _ _ _ _ _ _ Hc Hcall). destruct b.
    + by exists true, v'.
    + destruct (IH v' Hns) as (b & v'' & Hloop & Hv''); [set_solver|].
      exists b, v''. split; [done|set_solver].
Qed.

(** A budget larger than the number of pairs not yet visited is enough:
    each frame marks a fresh pair before it recurses. *)
Lemma dfs_returns fuel : ∀ state idx visited,
  state < length h → idx ≤ length s →
  size (configs h s ∖ visited) < fuel →
  ∃ b visited', dfs h s fuel state idx visited = Return (b, visited') ∧
                visited ⊆ visited'.
Proof.
  induction fuel as [|fuel IH]; intros state idx visited Hst Hidx Hsize; [lia|].
  rewrite dfs_S. case_decide as Hfresh.
  { exists false, visited. split; [done|set_solver]. }
  case_decide as Hne.
  { eexists _, _. split; [done|set_solver]. }
  assert (size (configs h s ∖ ({[(state, idx)]} ∪ visited)) < size (configs h s ∖ visited))
    as Hlt.
  { apply subset_size. split; [set_solver|].
    intros Hsub. specialize (Hsub (state, idx)).
    assert ((state, idx) ∈ configs h s) by (apply elem_of_configs; lia).
    set_solver. }
  destruct (for_next_returns (dfs h s fuel) idx (next_states (h !!! state))
              ({[(state, idx)]} ∪ visited)) with (visited := {[(state, idx)]} ∪ visited)
    as (b & v' & Hloop & Hv'); [lia| | |done|].
  2:{ apply Forall_forall. intros x Hx. by apply (Hwf state). }
  - intros st i v Hst' Hi Hsub. apply IH; [done..|].
    assert (size (configs h s ∖ v) ≤ size (configs h s ∖ ({[(state, idx)]} ∪ visited)))
      by (apply subseteq_size; set_solver).
    lia.
  - exists b, v'. split; [done|set_solver].
Qed.

Lemma dfs_returns_budget fuel state :
  state < length h → budget h s ≤ fuel →
  ∃ b visited', dfs h s fuel state 0 ∅ = Return (b, visited').
Proof.
  intros Hst Hfuel.
  destruct (dfs_returns fuel state 0 ∅) as (b & v & Hdfs & _); [done|lia| |by eauto].
  pose proof (size_configs h s).
  assert (size (configs h s ∖ ∅) ≤ size (configs h s))
    by (apply subseteq_size; set_solver).
  unfold budget in Hfuel. lia.
Qed.
End termination.

(** ** The store during compilation *)

Lemma length_extend_next r xs h : length (extend_next r xs h) = length h.
Proof. apply length_alter. Qed.

Lemma lookup_extend_next r xs h j :
  extend_next r xs h !!! j =
    if decide (r = j ∧ r < length h)
    then mkState (kind (h !!! r)) (next_states (h !!! r) ++ xs)
    else h !!! j.
Proof. unfold extend_next. by rewrite list_lookup_total_alter. Qed.

Lemma kind_extend_next r xs h j : kind (extend_next r xs h !!! j) = kind (h !!! j).
Proof. rewrite lookup_extend_next. case_decide as H; [by destruct H as [-> _]|done]. Qed.

Lemma next_extend_next_eq r xs h :
  r < length h →
  next_states (extend_next r xs h !!! r) = next_states (h !!! r) ++ xs.
Proof. intros. rewrite lookup_extend_next. case_decide; [done|lia]. Qed.

Lemma next_extend_next_ne r xs h j :
  r ≠ j → next_states (extend_next r xs h !!! j) = next_states (h !!! j).
Proof. intros. rewrite lookup_extend_next. case_decide; [lia|done]. Qed.

Lemma next_extend_next_mono r xs h j :
  next_states (h !!! j) ≠ [] → next_states (extend_next r xs h !!! j) ≠ [].
Proof.
  rewrite lookup_extend_next. case_decide as H; [|done].
  destruct H as [-> _]. simpl. by destruct (next_states (h !!! j)).
Qed.

Lemma elem_of_next_extend_next r xs h j x :
  x ∈ next_states (extend_next r xs h !!! j) →
  x ∈ next_states (h !!! j) ∨ x ∈ xs.
Proof.
  rewrite lookup_extend_next. case_decide as H; [|by left].
  destruct H as [-> _]. simpl. by rewrite elem_of_app.
Qed.

Lemma lookup_alloc_old (h : Store) st j : j < length h → (h ++ [st]) !!! j = h !!! j.
Proof. apply lookup_total_app_l. Qed.

Lemma lookup_alloc_new (h : Store) st : (h ++ [st]) !!! length h = st.
Proof. by rewrite list_lookup_total_middle. Qed.

Lemma lookup_alloc_new_eq (h : Store) st n : n = length h → (h ++ [st]) !!! n = st.
Proof. intros ->. apply lookup_alloc_new. Qed.

Lemma store_wf_extend_next r xs h :
  store_wf h → Forall (λ x, x < length h) xs → store_wf (extend_next r xs h).
Proof.
  intros Hwf Hxs j x. rewrite length_extend_next. intros Hj Hx.
  apply elem_of_next_extend_next in Hx as [Hx|Hx]; [by eapply Hwf|].
  by eapply Forall_forall in Hxs.
Qed.

Lemma store_wf_alloc h k ns :
  store_wf h → Forall (λ x, x < S (length h)) ns → store_wf (h ++ [mkState k ns]).
Proof.
  intros Hwf Hns j x. rewrite length_app. simpl. intros Hj Hx.
  destruct (decide (j = length h)) as [->|Hne].
  - rewrite lookup_alloc_new in Hx. simpl in Hx.
    eapply Forall_forall in Hns; [|done]. lia.
  - rewrite lookup_alloc_old in Hx by lia.
    assert (x < length h) by (eapply Hwf; [|done]; lia). lia.
Qed.

Lemma store_wf_next h r :
  store_wf h → r < length h → Forall (λ x, x < length h) (next_states (h !!! r)).
Proof. intros Hwf Hr. apply Forall_forall. intros x Hx. by eapply Hwf. Qed.

Lemma index_neg_seq n k :
  1 ≤ k →
  index_neg (seq 0 n) k = if decide (k ≤ n) then inr (n - k) else inl IndexError.
Proof.
  intros Hk1. unfold index_neg. rewrite length_seq. case_decide as Hk; [|done].
  by rewrite lookup_seq_lt by lia.
Qed.

(** ** Invariant of the compilation loop *)

Lemma init_fsm_inv : fsm_inv init_fsm.
Proof.
  split; simpl; try done; try lia.
  - intros r x Hr. assert (r = 0) as -> by (simpl in Hr; lia). simpl. by intros ?%elem_of_nil.
  - intros r Hr. assert (r = 0) as -> by lia. done.
Qed.

(** The four kinds of pattern character. *)
Lemma step_literal c self :
  isascii c = true → c ≠ chr_star → c ≠ chr_plus → c ≠ chr_dot →
  step c self =
    last_state ← index_neg (states self) 1;
    mret (mkFSM (extend_next last_state [length (store self)]
                   (store self ++ [mkState (AsciiState c) []]))
                (start_state self) (states self ++ [length (store self)])).
Proof.
  intros Hc H1 H2 H3. unfold step. rewrite Hc.
  rewrite bool_decide_eq_false_2; [done|].
  rewrite !elem_of_cons, elem_of_nil. naive_solver.
Qed.

Lemma step_dot self :
  step chr_dot self =
    last_state ← index_neg (states self) 1;
    mret (mkFSM (extend_next last_state [length (store self)]
                   (store self ++ [mkState DotState []]))
                (start_state self) (states self ++ [length (store self)])).
Proof. reflexivity. Qed.

Lemma step_star self :
  step chr_star self =
    base_state ← index_neg (states self) 1;
    let h := store self in
    let star_state := length h in
    let h := h ++ [mkState (StarState (kind (h !!! base_state))) [star_state]] in
    let h := extend_next star_state (next_states (h !!! base_state)) h in
    let h := extend_next base_state (next_states (h !!! star_state)) h in
    pred_state ← index_neg (states self) 2;
    mret (mkFSM (extend_next pred_state [star_state] h)
                (start_state self) (states self ++ [star_state])).
Proof. reflexivity. Qed.

Lemma step_plus self :
  step chr_plus self =
    base_state ← index_neg (states self) 1;
    let h := store self in
    let plus_state := length h in
    let h := h ++ [mkState (PlusState (kind (h !!! base_state))) [plus_state]] in
    let h := extend_next plus_state (next_states (h !!! base_state)) h in
    pred_state ← index_neg (states self) 2;
    mret (mkFSM (extend_next pred_state [plus_state] h)
                (start_state self) (states self ++ [plus_state])).
Proof. reflexivity. Qed.

Lemma step_not_ascii c self :
  isascii c = false → step c self = inl (ValueError "Invalid character").
Proof.
  intros Hc. unfold step. rewrite Hc. simpl.
  assert (c ≠ chr_dot ∧ c ≠ chr_star ∧ c ≠ chr_plus) as (? & ? & ?).
  { repeat split; intros ->; done. }
  by rewrite !bool_decide_eq_false_2.
Qed.

(** Every character is of one of the five kinds. *)
Lemma char_cases c :
  (isascii c = true ∧ c ≠ chr_star ∧ c ≠ chr_plus ∧ c ≠ chr_dot) ∨
  c = chr_dot ∨ c = chr_star ∨ c = chr_plus ∨ isascii c = false.
Proof.
  destruct (isascii c) eqn:Hc; [|by auto].
  destruct (decide (c = chr_dot)); [by auto|].
  destruct (decide (c = chr_star)); [by auto|].
  destruct (decide (c = chr_plus)); [by auto|]. left. done.
Qed.

(** Adding one state, keeping the classes and the successors of the
    earlier ones, keeps the invariant. *)
Lemma fsm_inv_grow self n h' :
  fsm_inv self →
  n = length (store self) →
  length h' = S n →
  store_wf h' →
  (∀ j, j < n → kind (h' !!! j) = kind (store self !!! j)) →
  (∀ j, j < n → next_states (store self !!! j) ≠ [] → next_states (h' !!! j) ≠ []) →
  kind (h' !!! n) ≠ TerminationState →
  (next_states (h' !!! (n - 1)) ≠ [] ∨
   kind (h' !!! n) = PlusState (kind (h' !!! (n - 1)))) →
  fsm_inv (mkFSM h' (start_state self) (states self ++ [n])).
Proof.
  intros [Hst Hne H0 Hwf Hterm Hout] -> Hlen Hwf' Hkind Hmono Hnew Hlast.
  split; simpl.
  - by rewrite Hlen, seq_S, Hst.
  - lia.
  - done.
  - done.
  - intros r Hr. destruct (decide (r = length (store self))) as [->|]; [done|].
    rewrite Hkind by lia. apply Hterm. lia.
  - intros r Hr. destruct (decide (S r = length (store self))) as [Heq|].
    + replace r with (length (store self) - 1) by lia.
      replace (S (length (store self) - 1)) with (length (store self)) by lia. done.
    + destruct (Hout r) as [Hn|Hp]; [lia|left; apply Hmono; [lia|done]|right].
      rewrite !Hkind by lia. done.
Qed.

Lemma app_not_nil_r {A} (l k : list A) : k ≠ [] → l ++ k ≠ [].
Proof. by destruct l, k. Qed.

Ltac store_simpl :=
  repeat first
    [ rewrite length_extend_next
    | rewrite kind_extend_next
    | rewrite length_app
    | rewrite lookup_alloc_new
    | rewrite lookup_alloc_old by (simpl; lia) ];
  simpl.

(** A successful iteration keeps the invariant and creates one state. *)
Lemma step_inv c self self' :
  fsm_inv self → step c self = inr self' →
  fsm_inv self' ∧ length (store self') = S (length (store self)).
Proof.
  intros Hinv Hstep. pose proof Hinv as [Hst Hne H0 Hwf Hterm Hout].
  remember (length (store self)) as n eqn:Hn.
  assert (Hlast : index_neg (states self) 1 = inr (n - 1)).
  { rewrite Hst, index_neg_seq by lia. case_decide; [done|lia]. }
  assert (Hpred : index_neg (states self) 2 =
                  if decide (2 ≤ n) then inr (n - 2) else inl IndexError).
  { rewrite Hst. apply index_neg_seq. lia. }
  destruct (char_cases c) as [(Hc & ? & ? & ?)|[->|[->|[->|Hc]]]].
  - (* a literal *)
    rewrite step_literal, Hlast in Hstep by done. simpl in Hstep.
    injection Hstep as <-. rewrite <- Hn.
    split; [|by simpl; store_simpl; lia].
    apply fsm_inv_grow; try done.
    + store_simpl. lia.
    + apply store_wf_extend_next; [apply store_wf_alloc; [done|constructor]|].
      store_simpl. apply Forall_singleton. lia.
    + intros j Hj. by store_simpl.
    + intros j Hj Hnn. apply next_extend_next_mono. by store_simpl.
    + rewrite kind_extend_next. by rewrite lookup_alloc_new_eq.
    + left. rewrite next_extend_next_eq by (store_simpl; lia).
      by apply app_not_nil_r.
  - (* '.' *)
    rewrite step_dot, Hlast in Hstep. simpl in Hstep.
    injection Hstep as <-. rewrite <- Hn.
    split; [|by simpl; store_simpl; lia].
    apply fsm_inv_grow; try done.
    + store_simpl. lia.
    + apply store_wf_extend_next; [apply store_wf_alloc; [done|constructor]|].
      store_simpl. apply Forall_singleton. lia.
    + intros j Hj. by store_simpl.
    + intros j Hj Hnn. apply next_extend_next_mono. by store_simpl.
    + rewrite kind_extend_next. by rewrite lookup_alloc_new_eq.
    + left. rewrite next_extend_next_eq by (store_simpl; lia).
      by apply app_not_nil_r.
  - (* '*' *)
    rewrite step_star, Hlast in Hstep. cbn [mbind exn_bind] in Hstep.
    rewrite Hpred in Hstep.
    case_decide as Hn2; [|done]. cbn [mbind exn_bind mret exn_ret] in Hstep.
    injection Hstep as <-. rewrite <- Hn.
    set (h1 := store self ++ [mkState (StarState (kind (store self !!! (n - 1)))) [n]]).
    set (h2 := extend_next n (next_states (h1 !!! (n - 1))) h1).
    set (h3 := extend_next (n - 1) (next_states (h2 !!! n)) h2).
    assert (Hl1 : length h1 = S n) by (unfold h1; rewrite length_app; simpl; lia).
    assert (Hl2 : length h2 = S n) by (unfold h2; by rewrite length_extend_next).
    assert (Hl3 : length h3 = S n) by (unfold h3; by rewrite length_extend_next).
    assert (Hwf1 : store_wf h1).
    { apply store_wf_alloc; [done|]. apply Forall_singleton. lia. }
    assert (Hwf2 : store_wf h2).
    { apply store_wf_extend_next; [done|]. apply store_wf_next; [done|lia]. }
    assert (Hwf3 : store_wf h3).
    { apply store_wf_extend_next; [done|]. apply store_wf_next; [done|lia]. }
    split; [|by simpl; rewrite length_extend_next].
    apply fsm_inv_grow; try done.
    + by rewrite length_extend_next.
    + apply store_wf_extend_next; [done|]. apply Forall_singleton. lia.
    + intros j Hj. unfold h3, h2, h1. rewrite !kind_extend_next.
      rewrite lookup_alloc_old by lia. done.
    + intros j Hj Hnn. do 3 apply next_extend_next_mono. unfold h1.
      by rewrite lookup_alloc_old by lia.
    + unfold h3, h2, h1. rewrite !kind_extend_next.
      by rewrite lookup_alloc_new_eq.
    + left. apply next_extend_next_mono. unfold h3.
      rewrite next_extend_next_eq by lia. apply app_not_nil_r.
      unfold h2. apply next_extend_next_mono. unfold h1.
      by rewrite lookup_alloc_new_eq.
  - (* '+' *)
    rewrite step_plus, Hlast in Hstep. cbn [mbind exn_bind] in Hstep.
    rewrite Hpred in Hstep.
    case_decide as Hn2; [|done]. cbn [mbind exn_bind mret exn_ret] in Hstep.
    injection Hstep as <-. rewrite <- Hn.
    set (h1 := store self ++ [mkState (PlusState (kind (store self !!! (n - 1)))) [n]]).
    set (h2 := extend_next n (next_states (h1 !!! (n - 1))) h1).
    assert (Hl1 : length h1 = S n) by (unfold h1; rewrite length_app; simpl; lia).
    assert (Hl2 : length h2 = S n) by (unfold h2; by rewrite length_extend_next).
    assert (Hwf1 : store_wf h1).
    { apply store_wf_alloc; [done|]. apply Forall_singleton. lia. }
    assert (Hwf2 : store_wf h2).
    { apply store_wf_extend_next; [done|]. apply store_wf_next; [done|lia]. }
    split; [|by simpl; rewrite length_extend_next].
    apply fsm_inv_grow; try done.
    + by rewrite length_extend_next.
    + apply store_wf_extend_next; [done|]. apply Forall_singleton. lia.
    + intros j Hj. unfold h2, h1. rewrite !kind_extend_next.
      rewrite lookup_alloc_old by lia. done.
    + intros j Hj Hnn. do 2 apply next_extend_next_mono. unfold h1.
      by rewrite lookup_alloc_old by lia.
    + unfold h2, h1. rewrite !kind_extend_next.
      by rewrite lookup_alloc_new_eq.
    + right. unfold h2, h1. rewrite !kind_extend_next.
      rewrite lookup_alloc_new_eq by done.
      by rewrite lookup_alloc_old by lia.
  - by rewrite step_not_ascii in Hstep.
Qed.

Lemma while_loop_inv regex_expr : ∀ self self',
  fsm_inv self → while_loop regex_expr self = inr self' →
  fsm_inv self' ∧ length (store self') = length (store self) + length regex_expr.
Proof.
  induction regex_expr as [|c rest IH]; intros self self' Hinv Hloop; simpl in Hloop.
  - injection Hloop as <-. split; [done|simpl; lia].
  - destruct (step c self) as [e|self1] eqn:Hstep; [done|].
    apply step_inv in Hstep as [Hinv1 Hlen1]; [|done].
    apply IH in Hloop as [Hinv' Hlen']; [|done]. split; [done|simpl; lia].
Qed.

Lemma while_loop_app p1 p2 self :
  while_loop (p1 ++ p2) self = self' ← while_loop p1 self; while_loop p2 self'.
Proof.
  revert self. induction p1 as [|c p1 IH]; intros self; [done|].
  simpl. destruct (step c self) as [e|self1]; [done|]. apply IH.
Qed.

(** ** When the loop succeeds *)

Lemma step_succeeds c self :
  fsm_inv self → isascii c = true →
  2 ≤ length (store self) ∨ (c ≠ chr_star ∧ c ≠ chr_plus) →
  ∃ self', step c self = inr self'.
Proof.
  intros [Hst Hne _ _ _ _] Hc Hok.
  assert (Hlast : index_neg (states self) 1 = inr (length (store self) - 1)).
  { rewrite Hst, index_neg_seq by lia. case_decide; [done|lia]. }
  assert (Hpred : 2 ≤ length (store self) →
                  index_neg (states self) 2 = inr (length (store self) - 2)).
  { intros ?. rewrite Hst, index_neg_seq by lia. case_decide; [done|lia]. }
  destruct (char_cases c) as [(_ & ? & ? & ?)|[->|[->|[->|Hc']]]].
  - rewrite step_literal, Hlast by done. by eexists.
  - rewrite step_dot, Hlast. by eexists.
  - rewrite step_star, Hlast. cbn [mbind exn_bind].
    rewrite Hpred by (destruct Hok as [?|[? _]]; done). by eexists.
  - rewrite step_plus, Hlast. cbn [mbind exn_bind].
    rewrite Hpred by (destruct Hok as [?|[_ ?]]; done). by eexists.
  - congruence.
Qed.

(** After a first atom, every ASCII pattern goes through the loop. *)
Lemma while_loop_succeeds regex_expr : ∀ self,
  fsm_inv self → 2 ≤ length (store self) →
  Forall (λ c, isascii c = true) regex_expr →
  ∃ self', while_loop regex_expr self = inr self'.
Proof.
  induction regex_expr as [|c rest IH]; intros self Hinv Hlen Hascii.
  - by eexists.
  - apply Forall_cons in Hascii as [Hc Hrest].
    destruct (step_succeeds c self) as [self1 Hstep]; [done|done|by left|].
    simpl. rewrite Hstep. cbn [mbind exn_bind].
    apply step_inv in Hstep as [Hinv1 Hlen1]; [|done]. apply IH; [done|lia|done].
Qed.

(** Attaching the termination state never fails. *)
Lemma finish_inv self :
  fsm_inv self →
  finish self =
    inr (mkFSM (extend_next (length (store self) - 1) [length (store self)]
                  (store self ++ [mkState TerminationState []]))
               (start_state self) (states self)).
Proof.
  intros [Hst Hne _ _ _ _]. unfold finish. simpl.
  rewrite Hst, index_neg_seq by lia. case_decide; [done|lia].
Qed.

(** ** The compiled automaton *)

Lemma compile_inv regex_expr self :
  compile regex_expr = inr self →
  ∃ self0, while_loop regex_expr init_fsm = inr self0 ∧ fsm_inv self0 ∧
    length (store self0) = 1 + length regex_expr ∧
    self = mkFSM (extend_next (length (store self0) - 1) [length (store self0)]
                    (store self0 ++ [mkState TerminationState []]))
                 (start_state self0) (states self0).
Proof.
  unfold compile. intros Hc.
  destruct (while_loop regex_expr init_fsm) as [e|self0] eqn:Hloop; [done|].
  cbn [mbind exn_bind] in Hc.
  destruct (while_loop_inv _ _ _ init_fsm_inv Hloop) as [Hinv Hlen].
  rewrite finish_inv in Hc by done. injection Hc as <-.
  exists self0. split; [done|]. split; [done|]. split; [|done].
  by rewrite Hlen.
Qed.

Lemma compile_length p self :
  compile p = inr self → length (store self) = length p + 2.
Proof.
  intros (self0 & _ & _ & Hlen & ->)%compile_inv. cbn [store].
  rewrite length_extend_next, length_app, Hlen. simpl. lia.
Qed.

Lemma compile_compiled regex_expr self :
  compile regex_expr = inr self → compiled self.
Proof.
  intros (self0 & _ & [Hst Hne H0 Hwf Hterm Hout] & _ & ->)%compile_inv.
  remember (length (store self0)) as n eqn:Hn.
  assert (Hlen : length (extend_next (n - 1) [n]
             (store self0 ++ [mkState TerminationState []])) = S n).
  { rewrite length_extend_next, length_app. simpl. lia. }
  split; simpl; rewrite ?Hlen; replace (S n - 1) with n by lia.
  - done.
  - lia.
  - apply store_wf_extend_next; [apply store_wf_alloc; [done|constructor]|].
    apply Forall_singleton. rewrite length_app. simpl. lia.
  - by rewrite kind_extend_next, lookup_alloc_new_eq.
  - rewrite next_extend_next_ne by lia. by rewrite lookup_alloc_new_eq.
  - intros r Hr Hk. destruct (decide (r = n)) as [|Hne']; [done|].
    rewrite kind_extend_next, lookup_alloc_old in Hk by lia.
    exfalso. eapply Hterm; [|done]. lia.
  - intros r Hr. destruct (decide (S r = n)) as [Heq|Hne'].
    + left. replace r with (n - 1) by lia.
      rewrite next_extend_next_eq by (rewrite length_app; simpl; lia).
      by apply app_not_nil_r.
    + destruct (Hout r) as [Hnn|Hp]; [lia| |].
      * left. apply next_extend_next_mono. by rewrite lookup_alloc_old by lia.
      * right. rewrite !kind_extend_next, !lookup_alloc_old by lia. done.
Qed.

(** ** Patterns without operators *)

Lemma check_self_atom q c :
  check_self (atom q) c = true ↔ q = chr_dot ∨ c = q.
Proof.
  unfold atom. case_bool_decide as Hq; simpl.
  - split; [by left|done].
  - rewrite bool_decide_eq_true. naive_solver.
Qed.

Lemma extend_next_middle (h : Store) st rest xs :
  extend_next (length h) xs (h ++ st :: rest) =
  h ++ mkState (kind st) (next_states st ++ xs) :: rest.
Proof.
  unfold extend_next.
  replace (length h) with (length h + 0) at 1 by lia.
  by rewrite alter_app_r.
Qed.

Lemma step_plain c self :
  isascii c = true → c ≠ chr_star → c ≠ chr_plus →
  step c self =
    last_state ← index_neg (states self) 1;
    mret (mkFSM (extend_next last_state [length (store self)]
                   (store self ++ [mkState (atom c) []]))
                (start_state self) (states self ++ [length (store self)])).
Proof.
  intros Hc Hs Hp. unfold atom. case_bool_decide as Hd.
  - subst c. apply step_dot.
  - by apply step_literal.
Qed.

Lemma compile_chain_from p : ∀ h k,
  plain p →
  (self ← while_loop p (mkFSM (h ++ [mkState k []]) 0 (seq 0 (S (length h))));
   finish self) =
  inr (mkFSM (h ++ chain (length h) k p) 0 (seq 0 (S (length h) + length p))).
Proof.
  induction p as [|c p IH]; intros h k Hplain.
  - cbn [while_loop mbind exn_bind]. unfold finish. cbn [alloc store states].
    rewrite index_neg_seq by lia. case_decide; [|lia].
    cbn [mbind exn_bind mret exn_ret start_state].
    rewrite length_app. simpl length.
    replace (S (length h) - 1) with (length h) by lia.
    rewrite <- app_assoc. simpl app. rewrite extend_next_middle. simpl.
    unfold mret, exn_ret. by rewrite Nat.add_1_r, Nat.add_0_r.
  - apply Forall_cons in Hplain as [(Hc & Hs & Hp) Hplain].
    cbn [while_loop]. rewrite step_plain by done. cbn [store states start_state].
    rewrite index_neg_seq by lia. case_decide; [|lia].
    cbn [mbind exn_bind mret exn_ret].
    rewrite length_app. simpl length.
    replace (S (length h) - 1) with (length h) by lia.
    rewrite <- app_assoc. cbn [app]. rewrite extend_next_middle.
    cbn [kind next_states app]. rewrite Nat.add_1_r.
    change [S (length h)] with [0 + S (length h)] at 2.
    rewrite <- (seq_S (S (length h)) 0).
    specialize (IH (h ++ [mkState k [S (length h)]]) (atom c) Hplain).
    rewrite length_app, <- app_assoc in IH. cbn [length app] in IH.
    rewrite Nat.add_1_r in IH. rewrite IH.
    rewrite <- app_assoc. cbn [chain app length].
    by rewrite <- !plus_n_Sm.
Qed.

Lemma compile_plain p :
  plain p →
  compile p = inr (mkFSM (chain 0 StartState p) 0 (seq 0 (S (length p)))).
Proof. intros Hp. apply (compile_chain_from p [] StartState Hp). Qed.

Lemma lookup_total_second (h : Store) x y rest :
  (h ++ x :: y :: rest) !!! S (length h) = y.
Proof.
  rewrite (cons_middle x), app_assoc.
  replace (S (length h)) with (length (h ++ [x])); [apply list_lookup_total_middle; done|].
  rewrite length_app. simpl. lia.
Qed.

Lemma lookup_chain_first (h : Store) k p :
  (h ++ chain (length h) k p) !!! length h = mkState k [S (length h)].
Proof. destruct p; simpl; by rewrite list_lookup_total_middle. Qed.

Lemma lookup_chain_first_eq (h : Store) n k p :
  n = length h → (h ++ chain n k p) !!! n = mkState k [S n].
Proof. intros ->. apply lookup_chain_first. Qed.

Lemma lookup_chain_second (h : Store) k p :
  (h ++ chain (length h) k p) !!! S (length h) =
    match p with
    | [] => mkState TerminationState []
    | q :: p' =>
      (h ++ [mkState k [S (length h)]] ++ chain (S (length h)) (atom q) p')
        !!! S (length h)
    end.
Proof. destruct p; simpl; [by rewrite lookup_total_second|done]. Qed.

Section chain_search.
Variable s : str.

(** The search from the state at the head of a chain follows [walk]: it
    never meets a pair it has visited, since the states only increase. *)
Lemma dfs_chain p : ∀ (h : Store) k idx visited fuel,
  idx ≤ length s →
  (∀ r i, (r, i) ∈ visited → r < length h) →
  length p + 2 ≤ fuel →
  ∃ visited',
    dfs (h ++ chain (length h) k p) s fuel (length h) idx visited =
      Return (walk p (drop idx s), visited').
Proof.
  induction p as [|q p IH]; intros h k idx visited fuel Hidx Hvis Hfuel.
  - destruct fuel as [|fuel]; [simpl in Hfuel; lia|].
    rewrite dfs_S. case_decide as Hin; [apply Hvis in Hin; lia|].
    rewrite lookup_chain_first. cbn [next_states].
    case_decide as Hend.
    + subst idx. rewrite drop_all. cbn [existsb walk].
      rewrite lookup_chain_second. simpl. by eexists.
    + destruct (lookup_lt_is_Some_2 s idx) as [c Hc]; [lia|].
      rewrite (drop_S _ _ _ Hc). cbn [walk].
      erewrite for_next_cons; [|done|].
      2:{ rewrite lookup_chain_second. cbn [kind check_self].
          destruct fuel as [|fuel]; [simpl in Hfuel; lia|].
          rewrite dfs_S. case_decide as Hin2.
          { apply elem_of_union in Hin2 as [Hin2|Hin2].
            - apply elem_of_singleton in Hin2. injection Hin2. lia.
            - apply Hvis in Hin2. lia. }
          case_decide; [lia|].
          rewrite lookup_chain_second. cbn [next_states].
          apply for_next_nil. }
      cbn. by eexists.
  - destruct fuel as [|fuel]; [simpl in Hfuel; lia|].
    rewrite dfs_S. case_decide as Hin; [apply Hvis in Hin; lia|].
    rewrite lookup_chain_first. cbn [next_states].
    assert (Hsecond : kind ((h ++ chain (length h) k (q :: p)) !!! S (length h))
                      = atom q).
    { rewrite lookup_chain_second, app_assoc.
      rewrite lookup_chain_first_eq; [done|].
      rewrite length_app. simpl. lia. }
    case_decide as Hend.
    + subst idx. rewrite drop_all. cbn [existsb walk]. rewrite Hsecond.
      assert (is_termination (atom q) = false) as ->
        by (unfold atom; by case_bool_decide).
      by eexists.
    + destruct (lookup_lt_is_Some_2 s idx) as [c Hc]; [lia|].
      rewrite (drop_S _ _ _ Hc). cbn [walk].
      edestruct (IH (h ++ [mkState k [S (length h)]]) (atom q)
                   (if check_self (atom q) c then idx + 1 else idx)
                   ({[(length h, idx)]} ∪ visited) fuel) as [v' Hrec].
      { destruct (check_self _ _); lia. }
      { intros r i [Hin2|Hin2]%elem_of_union; rewrite length_app; simpl.
        - apply elem_of_singleton in Hin2. injection Hin2. lia.
        - apply Hvis in Hin2. lia. }
      { simpl in Hfuel. lia. }
      rewrite length_app in Hrec. cbn [length] in Hrec.
      rewrite Nat.add_1_r, <- app_assoc in Hrec. cbn [app] in Hrec.
      erewrite for_next_cons; [|done|rewrite Hsecond; apply Hrec].
      rewrite Nat.add_1_r, for_next_nil.
      destruct (check_self (atom q) c).
      * destruct (walk p (drop (S idx) s)); by eexists.
      * rewrite (drop_S _ _ _ Hc). destruct (walk p (c :: drop (S idx) s)); by eexists.
Qed.
End chain_search.

Lemma length_chain p : ∀ n k, length (chain n k p) = length p + 2.
Proof. induction p as [|c p IH]; intros n k; [done|]. simpl. by rewrite IH. Qed.

Lemma check_string_plain p self s :
  plain p → compile p = inr self → check_string self s = Return (walk p s).
Proof.
  intros Hp Hc. rewrite compile_plain in Hc by done. injection Hc as <-.
  unfold check_string. cbn [store start_state].
  destruct (dfs_chain s p [] StartState 0 ∅ (budget (chain 0 StartState p) s))
    as [v' Hdfs].
  - lia.
  - intros r i Hin. by apply not_elem_of_empty in Hin.
  - unfold budget. rewrite length_chain. nia.
  - simpl in Hdfs. by rewrite Hdfs.
Qed.

Lemma walk_exact p : ∀ s, matches_exactly p s → walk p s = true.
Proof.
  induction p as [|q p IH]; intros [|c s] [Hlen Hpos]; simpl in Hlen; try done.
  simpl. assert (check_self (atom q) c = true) as ->.
  { apply check_self_atom. by apply (Hpos 0). }
  apply IH. split; [lia|]. intros i q' c' Hq' Hc'. by apply (Hpos (S i)).
Qed.

Lemma matches_exactly_refl p : matches_exactly p p.
Proof. split; [done|]. intros i q c Hq Hc. right. congruence. Qed.

Lemma walk_extra p x : walk p (p ++ [x]) = false.
Proof.
  induction p as [|q p IH]; [done|]. simpl.
  assert (check_self (atom q) q = true) as -> by (apply check_self_atom; by right).
  done.
Qed.

Lemma walk_nil s : walk [] s = true ↔ s = [].
Proof. by destruct s. Qed.

(** ** The pattern [a*] *)

Lemma compile_star_a : compile (of_string "a*") = inr star_a_fsm.
Proof. reflexivity. Qed.

Section star_a.
Variable len : nat.

(** From the star state, the search consumes the remaining [a]s through
    the self-loop and ends on the termination edge. *)
Lemma dfs_star_loop m : ∀ idx visited fuel,
  idx + m = len →
  (∀ i, idx ≤ i → (2, i) ∉ visited) →
  m < fuel →
  ∃ visited', dfs (store star_a_fsm) (replicate len chr_a) fuel 2 idx visited
              = Return (true, visited').
Proof.
  induction m as [|m IH]; intros idx visited fuel Hidx Hvis Hfuel;
    (destruct fuel as [|fuel]; [lia|]); rewrite dfs_S;
    (case_decide as Hin; [by apply Hvis in Hin|]);
    rewrite length_replicate.
  - case_decide; [|lia]. by eexists.
  - case_decide; [lia|]. cbn [store star_a_fsm next_states lookup_total list_lookup_total].
    destruct (IH (idx + 1) ({[(2, idx)]} ∪ visited) fuel) as [v' Hrec]; [lia| |lia|].
    { intros i Hi [Hin2|Hin2]%elem_of_union; [|by apply Hvis in Hin2; lia].
      apply elem_of_singleton in Hin2. injection Hin2. lia. }
    exists v'. erewrite for_next_cons; cycle 1.
    + apply lookup_replicate_2. lia.
    + simpl. apply Hrec.
    + reflexivity.
Qed.
End star_a.

(** One or more [a]s are accepted. *)
Lemma check_string_star_a_S n :
  check_string star_a_fsm (replicate (S n) chr_a) = Return true.
Proof.
  destruct n as [|n]; [reflexivity|].
  unfold check_string.
  remember (budget (store star_a_fsm) (replicate (S (S n)) chr_a)) as fuel eqn:Hfuel.
  unfold budget in Hfuel. rewrite length_replicate in Hfuel. simpl length in Hfuel.
  destruct fuel as [|[|fuel]]; [lia..|].
  destruct (dfs_star_loop (S (S n)) n 2 ({[(1, 1)]} ∪ ({[(0, 0)]} ∪ ∅)) fuel)
    as [v' Hloop]; [lia| |lia|].
  { intros i Hi. rewrite !elem_of_union, !elem_of_singleton, elem_of_empty.
    intros [[=]|[[=]|[]]]. }
  rewrite dfs_S. case_decide as Hin; [by apply elem_of_empty in Hin|].
  rewrite length_replicate. case_decide; [lia|].
  cbn [store star_a_fsm start_state next_states lookup_total list_lookup_total].
  erewrite for_next_cons; [| by apply lookup_replicate_2; lia |].
  2:{ simpl check_self. cbn match.
      rewrite dfs_S. case_decide as Hin1.
      { exfalso.
        apply elem_of_union in Hin1 as [Hin1|Hin1]; [|by apply elem_of_empty in Hin1].
        by apply elem_of_singleton in Hin1. }
      rewrite length_replicate. case_decide; [lia|].
      cbn [store star_a_fsm next_states lookup_total list_lookup_total].
      erewrite for_next_cons; [| by apply lookup_replicate_2; lia |].
      2:{ simpl. apply Hloop. }
      reflexivity. }
  reflexivity.
Qed.

(** ** The result does not depend on the budget *)

Lemma for_next_fuel_mono (h : Store) (s : str)
    (rec1 rec2 : nat → nat → gset (nat * nat) → result (bool * gset (nat * nat))) :
  (∀ state idx visited r,
     rec1 state idx visited = Return r → rec2 state idx visited = Return r) →
  ∀ idx ns visited r,
    for_next h s rec1 idx ns visited = Return r →
    for_next h s rec2 idx ns visited = Return r.
Proof.
  intros Hrec idx ns. induction ns as [|n ns IH]; intros visited r; [done|].
  simpl. destruct (s !! idx) as [c|]; [|done].
  destruct (check_self (kind (h !!! n)) c).
  - destruct (rec1 n (idx + 1) visited) as [[[] v]| |] eqn:H1; try done;
      rewrite (Hrec _ _ _ _ H1); [done|apply IH].
  - destruct (rec1 n idx visited) as [[[] v]| |] eqn:H1; try done;
      rewrite (Hrec _ _ _ _ H1); [done|apply IH].
Qed.

Lemma dfs_fuel_mono h s fuel : ∀ fuel' state idx visited r,
  fuel ≤ fuel' →
  dfs h s fuel state idx visited = Return r →
  dfs h s fuel' state idx visited = Return r.
Proof.
  induction fuel as [|fuel IH]; intros fuel' state idx visited r Hle; [done|].
  destruct fuel' as [|fuel']; [lia|]. rewrite !dfs_S.
  case_decide; [done|]. case_decide; [done|].
  apply for_next_fuel_mono. intros st i v r'. apply IH. lia.
Qed.

(** ** The depth of the recursion *)

Section star_a_deep.
Variable len : nat.

(** On the self-loop of the star state every [a] costs one nested call:
    with no more calls allowed than characters left, the search runs out
    of them before it reaches the end of the input. *)
Lemma dfs_star_deep fuel : ∀ idx visited,
  idx + fuel ≤ len →
  (∀ i, idx ≤ i → (2, i) ∉ visited) →
  dfs (store star_a_fsm) (replicate len chr_a) fuel 2 idx visited = OutOfFuel.
Proof.
  induction fuel as [|fuel IH]; intros idx visited Hidx Hvis; [done|].
  rewrite dfs_S. case_decide as Hin; [by apply Hvis in Hin|].
  rewrite length_replicate. case_decide; [lia|].
  cbn [store star_a_fsm next_states lookup_total list_lookup_total for_next].
  rewrite lookup_replicate_2 by lia.
  change (check_self (StarState (AsciiState chr_a)) chr_a) with true. cbn match.
  rewrite IH; [done|lia|].
  intros i Hi [Hin2|Hin2]%elem_of_union; [|by apply Hvis in Hin2; lia].
  apply elem_of_singleton in Hin2. injection Hin2. lia.
Qed.
End star_a_deep.

(** ** Concrete patterns *)

Lemma compile_plus_a : compile (of_string "a+") = inr plus_a_fsm.
Proof. reflexivity. Qed.

Lemma compile_demo : compile (of_string "a*4.+hi") = inr demo_fsm.
Proof. reflexivity. Qed.

(** The doctests of [RegexFSM]. *)
Example demo_doctests :
  check_string demo_fsm (of_string "aaaaaa4uhi") = Return true ∧
  check_string demo_fsm (of_string "4uhi") = Return true ∧
  check_string demo_fsm (of_string "meow") = Return false.
Proof. by vm_compute. Qed.

Ltac solve_plain :=
  unfold plain;
  match goal with
  | |- Forall _ ?l => let l' := eval vm_compute in l in change l with l'
  end;
  repeat (apply Forall_cons; split;
          [split; [reflexivity|split; unfold chr_star, chr_plus; discriminate]|]);
  constructor.

(** A character that is not ASCII stops the compilation, whatever follows,
    once the characters before it have been compiled. *)
Lemma compile_non_ascii p1 c p2 self :
  while_loop p1 init_fsm = inr self → isascii c = false →
  compile (p1 ++ c :: p2) = inl (ValueError "Invalid character").
Proof.
  intros H1 Hc. unfold compile. rewrite while_loop_app, H1.
  cbn [mbind exn_bind while_loop]. by rewrite step_not_ascii.
Qed.

(** * The claims *)

(** C1 (the code departs from the claim): for the pattern [a*], the empty
    string is rejected, although every string of one or more [a] is
    accepted.  At the end of the input the search only looks for a
    termination state among the successors of the current state, and the
    start state of [a*] has none. *)
Theorem star_a_rejects_empty :
  ∃ self, compile (of_string "a*") = inr self ∧
    check_string self [] = Return false ∧
    ∀ n, check_string self (replicate (S n) chr_a) = Return true.
Proof.
  exists star_a_fsm. split; [apply compile_star_a|]. split; [reflexivity|].
  apply check_string_star_a_S.
Qed.

(** C2, as stated, fails: the input [44hi] is not rejected by [a*4.+hi]. *)
Lemma demo_44hi_not_rejected :
  ¬ (∃ self, compile (of_string "a*4.+hi") = inr self ∧
       check_string self (of_string "44hi") = Return false).
Proof.
  intros (self & Hc & Hr). rewrite compile_demo in Hc. injection Hc as <-.
  vm_compute in Hr. discriminate.
Qed.

(** C2 (amended): [a*4.+hi] accepts [44hi].  The ['+'] wraps the state of
    the ['.'] before it, so after the mandatory [4] one or more arbitrary
    characters are consumed, here the second [4], before [hi]. *)
Theorem demo_44hi_accepted :
  ∃ self, compile (of_string "a*4.+hi") = inr self ∧
    kind (store self !!! 5) = PlusState DotState ∧
    check_string self (of_string "44hi") = Return true.
Proof. exists demo_fsm. split; [apply compile_demo|]. by vm_compute. Qed.

(** C3: the code breaks the claim at the pattern [ab] and the input [b].
    The pattern has ASCII characters only and no operator, [b] has not the
    length of [ab], and yet the automaton of [ab] accepts [b]: the state
    of [a] rejects [b] and is passed without consuming it. *)
Theorem ab_accepts_b :
  plain (of_string "ab") ∧
  ¬ matches_exactly (of_string "ab") (of_string "b") ∧
  ∃ self, compile (of_string "ab") = inr self ∧
    check_string self (of_string "b") = Return true.
Proof.
  assert (Hp : plain (of_string "ab")) by solve_plain.
  split; [done|]. split; [intros [Hlen _]; discriminate|].
  eexists. split; [by apply compile_plain|].
  rewrite (check_string_plain _ _ (of_string "b") Hp (compile_plain _ Hp)).
  reflexivity.
Qed.

(** C4: for the pattern [a+], the empty string is rejected and [a] is
    accepted, although the wrapped state [a] (index 1) has no edge at all,
    so none to the plus state (index 2). *)
Theorem plus_a_at_least_one :
  ∃ self, compile (of_string "a+") = inr self ∧
    kind (store self !!! 2) = PlusState (kind (store self !!! 1)) ∧
    next_states (store self !!! 1) = [] ∧
    check_string self [] = Return false ∧
    check_string self (of_string "a") = Return true.
Proof. exists plus_a_fsm. split; [apply compile_plus_a|]. by vm_compute. Qed.

(** C5: a pattern of ASCII characters without ['*'] and ['+'] accepts
    itself and rejects itself followed by [x]. *)
Theorem plain_accepts_itself p :
  plain p →
  ∃ self, compile p = inr self ∧
    check_string self p = Return true ∧
    check_string self (p ++ of_string "x") = Return false.
Proof.
  intros Hp. eexists. split; [by apply compile_plain|].
  rewrite !(check_string_plain p _ _ Hp (compile_plain p Hp)).
  change (of_string "x") with [120%N].
  rewrite walk_extra, walk_exact; [done|apply matches_exactly_refl].
Qed.

Lemma plain_accepts_itself_witness :
  plain (of_string "a.c") ∧
  ∃ self, compile (of_string "a.c") = inr self ∧
    check_string self (of_string "a.c") = Return true ∧
    check_string self (of_string "a.c" ++ of_string "x") = Return false.
Proof.
  split; [solve_plain|]. apply (plain_accepts_itself (of_string "a.c")). solve_plain.
Defined.

(** C6, as stated, fails: in the automaton of [a+] the state of [a] is not
    the termination state and has no outgoing transition. *)
Lemma outgoing_fails_at_plus_base :
  ¬ (∀ p self r, compile p = inr self → r < length (store self) →
       kind (store self !!! r) ≠ TerminationState →
       next_states (store self !!! r) ≠ []).
Proof.
  intros H. apply (H _ _ 1 compile_plus_a); [simpl; lia|done|done].
Qed.

(** C6 (amended): a compiled automaton has [len(pattern) + 2] states; the
    last one created is the only termination state and has no outgoing
    transition; every other state has at least one, unless it is the state
    wrapped by a ['+'] (the state created right before a [PlusState]),
    which the ['+'] rule leaves without a new edge. *)
Theorem compiled_outgoing p self :
  compile p = inr self →
  length (store self) = length p + 2 ∧
  (∃ st, store self !! (length p + 1) = Some st ∧
     kind st = TerminationState ∧ next_states st = []) ∧
  (∀ r st, store self !! r = Some st →
     kind st = TerminationState → r = length p + 1) ∧
  (∀ r st, store self !! r = Some st → r ≠ length p + 1 →
     next_states st ≠ [] ∨
     ∃ st', store self !! S r = Some st' ∧ kind st' = PlusState (kind st)).
Proof.
  intros Hc. pose proof (compile_length p self Hc) as Hlen.
  destruct (compile_compiled _ _ Hc) as [_ _ _ Hk Hn Hu Hout].
  rewrite Hlen in Hk, Hn, Hu, Hout.
  replace (length p + 2 - 1) with (length p + 1) in Hk, Hn, Hu by lia.
  split; [done|]. split; [|split].
  - exists (store self !!! (length p + 1)).
    split; [apply list_lookup_lookup_total_lt; lia|done].
  - intros r st Hr Hkind. pose proof (lookup_lt_Some _ _ _ Hr) as Hlt.
    apply list_lookup_total_correct in Hr as <-. apply Hu; [lia|done].
  - intros r st Hr Hne. pose proof (lookup_lt_Some _ _ _ Hr) as Hlt.
    apply list_lookup_total_correct in Hr as <-.
    destruct (Hout r) as [Hnext|Hplus]; [lia|by left|]. right.
    exists (store self !!! S r).
    split; [apply list_lookup_lookup_total_lt; lia|done].
Qed.

Lemma compiled_outgoing_witness :
  compile (of_string "a+") = inr plus_a_fsm ∧
  length (store plus_a_fsm) = 2 + 2 ∧
  (∃ st, store plus_a_fsm !! (2 + 1) = Some st ∧
     kind st = TerminationState ∧ next_states st = []) ∧
  (∀ r st, store plus_a_fsm !! r = Some st →
     kind st = TerminationState → r = 2 + 1) ∧
  (∀ r st, store plus_a_fsm !! r = Some st → r ≠ 2 + 1 →
     next_states st ≠ [] ∨
     ∃ st', store plus_a_fsm !! S r = Some st' ∧ kind st' = PlusState (kind st)).
Proof.
  split; [reflexivity|]. apply (compiled_outgoing (of_string "a+")). reflexivity.
Defined.

(** C7, as stated, fails: compiling [a#b] raises nothing. *)
Lemma hash_does_not_raise : ¬ (∃ e, compile (of_string "a#b") = inl e).
Proof. intros [e He]. vm_compute in He. discriminate. Qed.

(** C7 (amended): [a#b] compiles, ['#'] being an ASCII character other than
    ['*'], ['+'] and ['.'] and so a literal, and the automaton accepts
    [a#b]; the invalid-character error is raised for a character that is not
    ASCII, as in [a], U+00E9, [b]. *)
Theorem hash_is_a_literal :
  (∃ self, compile (of_string "a#b") = inr self ∧
     kind (store self !!! 2) = AsciiState 35%N ∧
     check_string self (of_string "a#b") = Return true) ∧
  compile [97%N; 233%N; 98%N] = inl (ValueError "Invalid character").
Proof.
  split; [|reflexivity].
  exists (mkFSM (chain 0 StartState (of_string "a#b")) 0 [0; 1; 2; 3]).
  by vm_compute.
Qed.

(** C8, as stated, fails: [a**], with two operators in a row, compiles. *)
Lemma double_operator_compiles : ¬ (∃ e, compile (of_string "a**") = inl e).
Proof. intros [e He]. vm_compute in He. discriminate. Qed.

(** C8 (amended): a pattern that begins with ['*'] or ['+'] does not
    compile, and the exception is the [IndexError] of [self.states[-2]], not
    the invalid-character error; an ASCII pattern that begins with another
    character compiles, operators in a row included. *)
Theorem operator_needs_two_states :
  (∀ rest, compile (chr_star :: rest) = inl IndexError) ∧
  (∀ rest, compile (chr_plus :: rest) = inl IndexError) ∧
  (∀ c rest, isascii c = true → c ≠ chr_star → c ≠ chr_plus →
     Forall (λ x, isascii x = true) rest →
     ∃ self, compile (c :: rest) = inr self).
Proof.
  split; [done|]. split; [done|]. intros c rest Hc Hs Hp Hrest.
  destruct (step_succeeds c init_fsm) as [self1 Hstep];
    [apply init_fsm_inv|done|by right|].
  destruct (step_inv _ _ _ init_fsm_inv Hstep) as [Hinv1 Hlen1].
  destruct (while_loop_succeeds rest self1) as [self2 Hloop];
    [done|rewrite Hlen1; simpl; lia|done|].
  destruct (while_loop_inv _ _ _ Hinv1 Hloop) as [Hinv2 _].
  unfold compile. cbn [while_loop]. rewrite Hstep. cbn [mbind exn_bind].
  rewrite Hloop. cbn [mbind exn_bind]. rewrite finish_inv by done. by eexists.
Qed.

Lemma operator_needs_two_states_witness :
  ∃ self, compile (of_string "a**") = inr self.
Proof.
  destruct operator_needs_two_states as (_ & _ & H).
  apply (H 97%N [42%N; 42%N]); [reflexivity|discriminate|discriminate|].
  repeat constructor.
Defined.

(** C9: the code breaks the claim on long inputs.  Whatever the number of
    nested calls of [dfs] the interpreter allows, [check_string] of the
    automaton of [a*] raises [RecursionError] on that many [a]s: the search
    goes one call deeper with every [a] it consumes, and needs one call
    more than there are characters. *)
Theorem check_string_recursion_error limit :
  compile (of_string "a*") = inr star_a_fsm ∧
  check_string_limited limit star_a_fsm (replicate limit chr_a)
  = Raise RecursionError.
Proof.
  split; [apply compile_star_a|].
  destruct limit as [|[|limit]]; [reflexivity..|].
  unfold check_string_limited.
  rewrite dfs_S. case_decide as Hin; [by apply elem_of_empty in Hin|].
  rewrite length_replicate. case_decide; [lia|].
  cbn [store star_a_fsm start_state next_states lookup_total list_lookup_total
       for_next].
  rewrite lookup_replicate_2 by lia.
  change (check_self (AsciiState chr_a) chr_a) with true. cbn match.
  rewrite dfs_S. case_decide as Hin1.
  { revert Hin1. rewrite elem_of_union, elem_of_singleton, elem_of_empty.
    by intros [[=]|[]]. }
  rewrite length_replicate. case_decide; [lia|].
  cbn [store star_a_fsm start_state next_states lookup_total list_lookup_total
       for_next].
  rewrite lookup_replicate_2 by lia.
  change (check_self (StarState (AsciiState chr_a)) chr_a) with true. cbn match.
  rewrite dfs_star_deep; [done|simpl; lia|].
  intros i Hi. rewrite !elem_of_union, !elem_of_singleton, elem_of_empty.
  intros [[=]|[[=]|[]]]; lia.
Qed.

(** C10: the empty pattern compiles, and its automaton accepts the empty
    string and nothing else. *)
Theorem empty_pattern :
  ∃ self, compile [] = inr self ∧
    ∀ s, check_string self s = Return true ↔ s = [].
Proof.
  assert (Hp : plain []) by constructor.
  eexists. split; [by apply compile_plain|]. intros s.
  rewrite (check_string_plain [] _ s Hp (compile_plain [] Hp)).
  rewrite <- walk_nil. split; [by intros [=]|by intros ->].
Qed.

(** * Further properties of the builder and of the matcher *)

(** ** One more state at a time *)

Lemma lookup_total_ge (h : Store) j : length h ≤ j → h !!! j = inhabitant.
Proof. intros Hj. by rewrite list_lookup_total_alt, lookup_ge_None_2. Qed.

Lemma next_extend_next_prefix r xs (h : Store) j :
  next_states (h !!! j) `prefix_of` next_states (extend_next r xs h !!! j).
Proof.
  rewrite lookup_extend_next. case_decide as H; [|done].
  destruct H as [-> _]. simpl. by apply prefix_app_r.
Qed.

Lemma extends_alloc (h : Store) k ns :
  Forall (λ x, x = length h) ns → extends h (h ++ [mkState k ns]).
Proof.
  intros Hns. split; [rewrite length_app; simpl; lia|].
  split; [intros j Hj; by rewrite lookup_alloc_old|].
  split; [intros j Hj; by rewrite lookup_alloc_old|].
  intros j x Hx. destruct (decide (j < length h)) as [Hj|Hj].
  - rewrite lookup_alloc_old in Hx by done. right. by exists j.
  - destruct (decide (j = length h)) as [->|Hne].
    + rewrite lookup_alloc_new in Hx. simpl in Hx. left.
      by eapply Forall_forall in Hns.
    + rewrite lookup_total_ge in Hx by (rewrite length_app; simpl; lia).
      by apply elem_of_nil in Hx.
Qed.

Lemma extends_extend_next (h g : Store) r xs :
  extends h g →
  Forall (λ x, x = length h ∨ ∃ j', j' < length h ∧ x ∈ next_states (h !!! j')) xs →
  extends h (extend_next r xs g).
Proof.
  intros (Hlen & Hkind & Hpre & Hnew) Hxs.
  split; [by rewrite length_extend_next|].
  split; [intros j Hj; rewrite kind_extend_next; by apply Hkind|].
  split.
  - intros j Hj. etrans; [by apply Hpre|apply next_extend_next_prefix].
  - intros j x [Hx|Hx]%elem_of_next_extend_next; [by eapply Hnew|].
    by eapply Forall_forall in Hxs.
Qed.

Lemma extends_next (h g : Store) r :
  extends h g →
  Forall (λ x, x = length h ∨ ∃ j', j' < length h ∧ x ∈ next_states (h !!! j'))
         (next_states (g !!! r)).
Proof. intros (_ & _ & _ & Hnew). apply Forall_forall. intros x Hx. by eapply Hnew. Qed.

Lemma extends_new_edge (h : Store) :
  Forall (λ x, x = length h ∨ ∃ j', j' < length h ∧ x ∈ next_states (h !!! j'))
         [length h].
Proof. apply Forall_singleton. by left. Qed.

(** What one successful iteration does to the store. *)
Lemma step_extends c self self' :
  fsm_inv self → step c self = inr self' →
  extends (store self) (store self') ∧
  kind (store self' !!! length (store self)) =
    class_for c (kind (store self !!! (length (store self) - 1))) ∧
  (c = chr_star ∨ c = chr_plus →
   [length (store self)] `prefix_of`
     next_states (store self' !!! length (store self))).
Proof.
  intros Hinv Hstep. pose proof Hinv as [Hst Hne H0 Hwf Hterm Hout].
  remember (length (store self)) as n eqn:Hn.
  assert (Hlast : index_neg (states self) 1 = inr (n - 1)).
  { rewrite Hst, index_neg_seq by lia. case_decide; [done|lia]. }
  assert (Hpred : index_neg (states self) 2 =
                  if decide (2 ≤ n) then inr (n - 2) else inl IndexError).
  { rewrite Hst. apply index_neg_seq. lia. }
  assert (Hedge := extends_new_edge (store self)). rewrite <- Hn in Hedge.
  destruct (char_cases c) as [(Hc & Hs & Hp & Hd)|[->|[->|[->|Hc]]]].
  - rewrite step_plain, Hlast in Hstep by done. simpl in Hstep.
    injection Hstep as <-. cbn [store]. rewrite <- Hn. split; [|split].
    + apply extends_extend_next; [|by rewrite <- Hn].
      apply extends_alloc. constructor.
    + rewrite kind_extend_next, lookup_alloc_new_eq by done. simpl.
      unfold class_for. by rewrite !bool_decide_eq_false_2.
    + by intros [?|?].
  - rewrite step_dot, Hlast in Hstep. simpl in Hstep.
    injection Hstep as <-. cbn [store]. rewrite <- Hn. split; [|split].
    + apply extends_extend_next; [|by rewrite <- Hn].
      apply extends_alloc. constructor.
    + by rewrite kind_extend_next, lookup_alloc_new_eq.
    + by intros [?|?].
  - rewrite step_star, Hlast in Hstep. cbn [mbind exn_bind] in Hstep.
    rewrite Hpred in Hstep.
    case_decide as Hn2; [|done]. cbn [mbind exn_bind mret exn_ret] in Hstep.
    injection Hstep as <-. cbn [store]. rewrite <- Hn.
    set (h1 := store self ++ [mkState (StarState (kind (store self !!! (n - 1)))) [n]]).
    set (h2 := extend_next n (next_states (h1 !!! (n - 1))) h1).
    set (h3 := extend_next (n - 1) (next_states (h2 !!! n)) h2).
    assert (He1 : extends (store self) h1).
    { apply extends_alloc. apply Forall_singleton. done. }
    assert (He2 : extends (store self) h2) by (apply extends_extend_next, extends_next; done).
    assert (He3 : extends (store self) h3) by (apply extends_extend_next, extends_next; done).
    split; [|split].
    + apply extends_extend_next; [done|by rewrite <- Hn].
    + unfold h3, h2, h1. rewrite !kind_extend_next.
      by rewrite lookup_alloc_new_eq.
    + intros _. etrans; [|apply next_extend_next_prefix]. unfold h3.
      etrans; [|apply next_extend_next_prefix]. unfold h2.
      etrans; [|apply next_extend_next_prefix]. unfold h1.
      by rewrite lookup_alloc_new_eq.
  - rewrite step_plus, Hlast in Hstep. cbn [mbind exn_bind] in Hstep.
    rewrite Hpred in Hstep.
    case_decide as Hn2; [|done]. cbn [mbind exn_bind mret exn_ret] in Hstep.
    injection Hstep as <-. cbn [store]. rewrite <- Hn.
    set (h1 := store self ++ [mkState (PlusState (kind (store self !!! (n - 1)))) [n]]).
    set (h2 := extend_next n (next_states (h1 !!! (n - 1))) h1).
    assert (He1 : extends (store self) h1).
    { apply extends_alloc. apply Forall_singleton. done. }
    assert (He2 : extends (store self) h2) by (apply extends_extend_next, extends_next; done).
    split; [|split].
    + apply extends_extend_next; [done|by rewrite <- Hn].
    + unfold h2, h1. rewrite !kind_extend_next.
      by rewrite lookup_alloc_new_eq.
    + intros _. etrans; [|apply next_extend_next_prefix]. unfold h2.
      etrans; [|apply next_extend_next_prefix]. unfold h1.
      by rewrite lookup_alloc_new_eq.
  - by rewrite step_not_ascii in Hstep.
Qed.

(** ** The store after the loop *)

(** Further iterations keep the classes of the states that exist and only
    append to their edges. *)
Lemma while_loop_extends p : ∀ self self',
  fsm_inv self → while_loop p self = inr self' →
  ∀ j, j < length (store self) →
    kind (store self' !!! j) = kind (store self !!! j) ∧
    next_states (store self !!! j) `prefix_of` next_states (store self' !!! j).
Proof.
  induction p as [|c p IH]; intros self self' Hinv Hloop j Hj; simpl in Hloop.
  - by injection Hloop as <-.
  - destruct (step c self) as [e|self1] eqn:Hstep; [done|].
    cbn [mbind exn_bind] in Hloop.
    destruct (step_inv _ _ _ Hinv Hstep) as [Hinv1 Hlen1].
    destruct (step_extends _ _ _ Hinv Hstep) as [(_ & Hk & Hpre & _) _].
    destruct (IH _ _ Hinv1 Hloop j) as [Hk' Hpre']; [lia|].
    split; [by rewrite Hk', Hk|]. etrans; [by apply Hpre|done].
Qed.

Lemma while_loop_snoc p c self self' :
  while_loop (p ++ [c]) self = inr self' →
  ∃ self1, while_loop p self = inr self1 ∧ step c self1 = inr self'.
Proof.
  rewrite while_loop_app. destruct (while_loop p self) as [e|self1]; [done|].
  cbn [mbind exn_bind while_loop]. intros Hstep. exists self1. split; [done|].
  by destruct (step c self1).
Qed.

Lemma is_repeat_class_for c k :
  is_repeat (class_for c k) = true → c = chr_star ∨ c = chr_plus.
Proof.
  unfold class_for, atom. repeat case_bool_decide; simpl; auto; done.
Qed.

(** The store built by the loop from the start state alone. *)
Lemma while_loop_shape p : ∀ self,
  while_loop p init_fsm = inr self →
  kind (store self !!! 0) = StartState ∧
  (∀ i c, p !! i = Some c →
     kind (store self !!! S i) = class_for c (kind (store self !!! i))) ∧
  (∀ j x, x ∈ next_states (store self !!! j) → 1 ≤ x) ∧
  (∀ r, r < length (store self) → is_repeat (kind (store self !!! r)) = true →
     [r] `prefix_of` next_states (store self !!! r)).
Proof.
  induction p as [|c p IH] using rev_ind; intros self Hloop.
  - injection Hloop as <-. split; [done|]. split; [done|]. split.
    + intros [|j] x Hx; simpl in Hx; by apply elem_of_nil in Hx.
    + intros r Hr. simpl in Hr. by replace r with 0 by lia.
  - apply while_loop_snoc in Hloop as (self1 & Hloop1 & Hstep).
    destruct (IH _ Hloop1) as (Hk0 & Hcls & Hpos & Hloopf).
    destruct (while_loop_inv _ _ _ init_fsm_inv Hloop1) as [Hinv1 Hlen1].
    simpl in Hlen1.
    destruct (step_extends _ _ _ Hinv1 Hstep)
      as ((Hlen & Hkind & Hpre & Hnew) & Hnewk & Hnewl).
    rewrite Hlen1 in *. split; [|split; [|split]].
    + rewrite Hkind by lia. done.
    + intros i c' Hi. destruct (decide (i < length p)) as [Hlt|Hge].
      * rewrite lookup_app_l in Hi by done.
        rewrite !Hkind by lia. by apply Hcls.
      * assert (i = length p) as ->.
        { apply lookup_lt_Some in Hi. rewrite length_app in Hi. simpl in Hi. lia. }
        rewrite list_lookup_middle in Hi by done. injection Hi as <-.
        rewrite Hnewk. replace (S (length p) - 1) with (length p) by lia.
        by rewrite Hkind by lia.
    + intros j x Hx. destruct (Hnew j x Hx) as [->|(j' & _ & Hx')]; [lia|].
      by eapply Hpos.
    + intros r Hr Hrep. rewrite Hlen in Hr.
      destruct (decide (r = S (length p))) as [->|Hne].
      * rewrite Hnewk in Hrep. apply Hnewl. by eapply is_repeat_class_for.
      * rewrite Hkind in Hrep by lia.
        etrans; [apply Hloopf; [lia|done]|apply Hpre; lia].
Qed.

Lemma finish_extends self :
  extends (store self)
    (extend_next (length (store self) - 1) [length (store self)]
       (store self ++ [mkState TerminationState []])).
Proof.
  apply extends_extend_next; [apply extends_alloc; constructor|].
  apply extends_new_edge.
Qed.

(** ** The compiled automaton, state by state *)

Lemma termination_edge_iff p self r :
  compile p = inr self →
  S (length p) ∈ next_states (store self !!! r) ↔ r = length p.
Proof.
  intros (self0 & Hloop & Hinv & Hlen & ->)%compile_inv.
  pose proof Hinv as [_ _ _ Hwf _ _]. cbn [store]. simpl in Hlen.
  rewrite Hlen. replace (S (length p) - 1) with (length p) by lia. split.
  - rewrite lookup_extend_next. case_decide as Hd; [by destruct Hd|].
    intros Hx. exfalso. destruct (decide (r < S (length p))) as [Hr|Hr].
    + rewrite lookup_alloc_old in Hx by lia.
      apply Hwf in Hx; lia.
    + destruct (decide (r = S (length p))) as [->|Hne].
      * rewrite lookup_alloc_new_eq in Hx by done. by apply elem_of_nil in Hx.
      * rewrite lookup_total_ge in Hx by (rewrite length_app; simpl; lia).
        by apply elem_of_nil in Hx.
  - intros ->. rewrite next_extend_next_eq by (rewrite length_app; simpl; lia).
    apply elem_of_app. right. apply list_elem_of_here.
Qed.

Lemma compile_shape p self :
  compile p = inr self →
  length (store self) = length p + 2 ∧
  states self = seq 0 (S (length p)) ∧
  start_state self = 0 ∧
  kind (store self !!! 0) = StartState ∧
  (∀ i c, p !! i = Some c →
     kind (store self !!! S i) = class_for c (kind (store self !!! i))) ∧
  kind (store self !!! S (length p)) = TerminationState.
Proof.
  intros (self0 & Hloop & Hinv & Hlen & ->)%compile_inv.
  destruct (while_loop_shape _ _ Hloop) as (Hk0 & Hcls & _ & _).
  pose proof Hinv as [Hst _ H0 _ _ _]. cbn [store states start_state].
  rewrite length_extend_next, length_app, Hlen. simpl length.
  split; [lia|]. split; [by rewrite Hst, Hlen|]. split; [done|].
  split; [by rewrite kind_extend_next, lookup_alloc_old by lia|]. split.
  - intros i c Hi. pose proof (lookup_lt_Some _ _ _ Hi).
    rewrite !kind_extend_next, !lookup_alloc_old by lia. by apply Hcls.
  - rewrite kind_extend_next. by rewrite lookup_alloc_new_eq by lia.
Qed.

(** X1: the compiled automaton has one state for the start, one for every
    pattern character, in order, and the termination state last.  The state
    of a literal is an [AsciiState] of that character, the state of ['.'] a
    [DotState], and the state of ['*'] or ['+'] wraps the class of the state
    just before it. *)
Theorem compiled_shape p self :
  compile p = inr self →
  length (store self) = length p + 2 ∧
  states self = seq 0 (S (length p)) ∧
  start_state self = 0 ∧
  kind (store self !!! 0) = StartState ∧
  (∀ i c, p !! i = Some c →
     kind (store self !!! S i) = class_for c (kind (store self !!! i))) ∧
  kind (store self !!! S (length p)) = TerminationState.
Proof. apply compile_shape. Qed.

Lemma compiled_shape_witness :
  length (store demo_fsm) = length (of_string "a*4.+hi") + 2 ∧
  states demo_fsm = seq 0 (S (length (of_string "a*4.+hi"))) ∧
  start_state demo_fsm = 0 ∧
  kind (store demo_fsm !!! 0) = StartState ∧
  (∀ i c, of_string "a*4.+hi" !! i = Some c →
     kind (store demo_fsm !!! S i) = class_for c (kind (store demo_fsm !!! i))) ∧
  kind (store demo_fsm !!! S (length (of_string "a*4.+hi"))) = TerminationState.
Proof. apply (compiled_shape (of_string "a*4.+hi")). reflexivity. Defined.

Lemma compile_edges_inside p self r x :
  compile p = inr self →
  x ∈ next_states (store self !!! r) →
  1 ≤ x ∧ x < length (store self).
Proof.
  intros Hc Hx. pose proof (compile_compiled _ _ Hc) as [_ _ Hwf _ _ _ _].
  assert (Hr : r < length (store self)).
  { destruct (decide (r < length (store self))); [done|].
    rewrite lookup_total_ge in Hx by lia. by apply elem_of_nil in Hx. }
  split; [|by eapply Hwf].
  apply compile_inv in Hc as (self0 & Hloop & Hinv & Hlen & ->).
  destruct (while_loop_shape _ _ Hloop) as (_ & _ & Hpos & _).
  destruct (finish_extends self0) as (_ & _ & _ & Hnew).
  cbn [store] in Hx. destruct (Hnew r x Hx) as [->|(j' & _ & Hx')]; [lia|].
  by eapply Hpos.
Qed.

(** X2: in a compiled automaton every edge leads to a state of the store
    other than the start state: the start state has no incoming edge. *)
Theorem compiled_edges_inside p self r x :
  compile p = inr self →
  x ∈ next_states (store self !!! r) →
  1 ≤ x ∧ x < length (store self).
Proof. apply compile_edges_inside. Qed.

Lemma compiled_edges_inside_witness :
  1 ≤ 2 ∧ 2 < length (store star_a_fsm).
Proof.
  apply (compiled_edges_inside (of_string "a*") star_a_fsm 1 2); [reflexivity|].
  apply list_elem_of_here.
Defined.

(** X3: the only edge to the termination state leaves the state of the
    last pattern character (the start state when the pattern is empty). *)
Theorem termination_edge p self r :
  compile p = inr self →
  S (length p) ∈ next_states (store self !!! r) ↔ r = length p.
Proof. apply termination_edge_iff. Qed.

Lemma termination_edge_witness :
  S (length (of_string "a*")) ∈ next_states (store star_a_fsm !!! 2) ↔
  2 = length (of_string "a*").
Proof. apply (termination_edge (of_string "a*") star_a_fsm 2). reflexivity. Defined.

(** X4: a compiled automaton accepts the empty string only when the pattern
    is empty: at the end of the input the search looks for the termination
    state among the successors of the current state and goes no further, so
    [a*] and every other non-empty pattern reject the empty string. *)
Theorem empty_input p self :
  compile p = inr self →
  check_string self [] = Return (bool_decide (p = [])).
Proof.
  intros Hc. pose proof (compile_compiled _ _ Hc) as [H0 Hlen Hwf Hk _ Hu _].
  unfold check_string, budget. simpl length. rewrite Nat.add_1_r, dfs_S.
  case_decide as Hin; [by apply elem_of_empty in Hin|].
  case_decide; [|done]. f_equal. rewrite H0.
  case_bool_decide as Hp.
  - subst p. by injection Hc as <-.
  - apply not_true_is_false. intros (t & Ht & Hterm)%existsb_exists.
    apply list_elem_of_In in Ht.
    assert (kind (store self !!! t) = TerminationState) as Hkt
      by (by destruct (kind (store self !!! t))).
    assert (t < length (store self)) as Hlt by (apply (Hwf 0); [lia|done]).
    apply Hu in Hkt; [|done].
    pose proof (compile_length p self Hc) as Hl.
    rewrite Hkt, Hl in Ht. replace (length p + 2 - 1) with (S (length p)) in Ht by lia.
    apply (termination_edge_iff p self 0 Hc) in Ht. by destruct p.
Qed.

Lemma empty_input_witness :
  check_string star_a_fsm [] = Return (bool_decide (of_string "a*" = [])).
Proof. apply (empty_input (of_string "a*")). reflexivity. Defined.

Lemma repeat_self_loop_aux p self r :
  compile p = inr self →
  is_repeat (kind (store self !!! r)) = true →
  [r] `prefix_of` next_states (store self !!! r).
Proof.
  intros Hc Hrep. pose proof (compile_compiled _ _ Hc) as [_ _ _ Hk _ _ _].
  assert (Hr : r < length (store self) - 1).
  { destruct (decide (r < length (store self) - 1)); [done|].
    destruct (decide (r = length (store self) - 1)) as [->|].
    - by rewrite Hk in Hrep.
    - by rewrite lookup_total_ge in Hrep by lia. }
  apply compile_inv in Hc as (self0 & Hloop & Hinv & Hlen & ->).
  destruct (while_loop_shape _ _ Hloop) as (_ & _ & _ & Hself).
  destruct (finish_extends self0) as (Hl & Hkind & Hpre & _).
  cbn [store] in *. rewrite Hl in Hr.
  rewrite Hkind in Hrep by lia.
  etrans; [apply Hself; [lia|done]|apply Hpre; lia].
Qed.

(** X5: in a compiled automaton the first edge of every [StarState] and of
    every [PlusState] is its self-loop, put there when the state is created;
    later edges are only appended after it. *)
Theorem repeat_self_loop p self r :
  compile p = inr self →
  is_repeat (kind (store self !!! r)) = true →
  ∃ rest, next_states (store self !!! r) = r :: rest.
Proof. intros Hc Hrep. by destruct (repeat_self_loop_aux p self r Hc Hrep) as [k ->]; eexists. Qed.

Lemma repeat_self_loop_witness :
  ∃ rest, next_states (store demo_fsm !!! 5) = 5 :: rest.
Proof. apply (repeat_self_loop (of_string "a*4.+hi") demo_fsm 5); reflexivity. Defined.

Lemma compile_head p self c :
  compile p = inr self → head p = Some c → c ≠ chr_star ∧ c ≠ chr_plus.
Proof.
  destruct p as [|c' p]; [done|]. intros Hc [= ->].
  split; intros ->; discriminate Hc.
Qed.

Lemma compile_tests_atom p self i :
  compile p = inr self → i < length p →
  ∃ q, q ∈ p ∧ q ≠ chr_star ∧ q ≠ chr_plus ∧
    ∀ c, check_self (kind (store self !!! S i)) c = check_self (atom q) c.
Proof.
  intros Hc. destruct (compile_shape p self Hc) as (_ & _ & _ & Hk0 & Hcls & _).
  induction i as [|i IH]; intros Hi.
  - destruct (lookup_lt_is_Some_2 p 0 Hi) as [q Hq].
    destruct (compile_head p self q Hc) as [Hs Hp]; [by destruct p|].
    exists q. split; [by eapply list_elem_of_lookup_2|]. split; [done|]. split; [done|].
    intros c. rewrite (Hcls 0 q Hq). unfold class_for.
    by rewrite !bool_decide_eq_false_2.
  - destruct (lookup_lt_is_Some_2 p (S i) Hi) as [q Hq].
    rewrite (Hcls (S i) q Hq). unfold class_for.
    case_bool_decide as Hs; [apply IH; lia|].
    case_bool_decide as Hp; [apply IH; lia|].
    exists q. split; [by eapply list_elem_of_lookup_2|]. done.
Qed.

(** X6: in a compiled automaton the state of every pattern character tests
    what the state of some literal or ['.'] of the pattern tests: ['*'] and
    ['+'], also stacked, delegate down to the atom they wrap and never wrap
    the start state. *)
Theorem repeat_tests_atom p self i :
  compile p = inr self → i < length p →
  ∃ q, q ∈ p ∧ q ≠ chr_star ∧ q ≠ chr_plus ∧
    ∀ c, check_self (kind (store self !!! S i)) c = check_self (atom q) c.
Proof. apply compile_tests_atom. Qed.

Lemma repeat_tests_atom_witness :
  ∃ q, q ∈ of_string "a**" ∧ q ≠ chr_star ∧ q ≠ chr_plus ∧
    ∀ c, check_self
           (kind (store (mkFSM [ mkState StartState [1; 2];
                                 mkState (AsciiState chr_a) [2; 3];
                                 mkState (StarState (AsciiState chr_a)) [2; 3; 2];
                                 mkState (StarState (StarState (AsciiState chr_a))) [3; 2; 4];
                                 mkState TerminationState [] ] 0 [0; 1; 2; 3]) !!! 3)) c
         = check_self (atom q) c.
Proof.
  apply (repeat_tests_atom (of_string "a**") _ 2); [reflexivity|simpl; lia].
Defined.

(** X7: extending a pattern keeps the states of the shorter pattern: in the
    automaton of [p1 ++ p2] the states of the start and of the characters
    of [p1] have the classes they have in the automaton of [p1], and those
    before the last keep their edges as the first ones, in the same order. *)
Theorem compile_prefix_stable p1 p2 self1 self2 j :
  compile p1 = inr self1 → compile (p1 ++ p2) = inr self2 →
  j ≤ length p1 →
  kind (store self2 !!! j) = kind (store self1 !!! j) ∧
  (j < length p1 →
   next_states (store self1 !!! j) `prefix_of` next_states (store self2 !!! j)).
Proof.
  intros (s1 & Hloop1 & Hinv1 & Hlen1 & ->)%compile_inv
         (s2 & Hloop2 & Hinv2 & Hlen2 & ->)%compile_inv Hj.
  rewrite while_loop_app, Hloop1 in Hloop2. cbn [mbind exn_bind] in Hloop2.
  simpl in Hlen1.
  destruct (while_loop_extends _ _ _ Hinv1 Hloop2 j) as [Hk Hpre]; [lia|].
  destruct (finish_extends s2) as (_ & Hk2 & Hpre2 & _).
  destruct (while_loop_inv _ _ _ Hinv1 Hloop2) as [_ Hlen12].
  cbn [store]. split.
  - rewrite Hk2 by lia. rewrite kind_extend_next, lookup_alloc_old by lia. done.
  - intros Hlt. rewrite (next_extend_next_ne _ _ (store s1 ++ _)) by lia.
    rewrite lookup_alloc_old by lia.
    etrans; [done|]. apply Hpre2. lia.
Qed.

Lemma compile_prefix_stable_witness :
  kind (store demo_fsm !!! 1) = kind (store star_a_fsm !!! 1) ∧
  (1 < length (of_string "a*") →
   next_states (store star_a_fsm !!! 1) `prefix_of` next_states (store demo_fsm !!! 1)).
Proof.
  apply (compile_prefix_stable (of_string "a*") (of_string "4.+hi"));
    [reflexivity|reflexivity|simpl; lia].
Defined.

(** ** The three outcomes of a compilation *)

Lemma first_non_ascii p :
  ¬ Forall (λ c, isascii c = true) p →
  ∃ p1 c p2, p = p1 ++ c :: p2 ∧ Forall (λ c, isascii c = true) p1 ∧
             isascii c = false.
Proof.
  induction p as [|c p IH]; intros Hn; [by destruct Hn|].
  destruct (isascii c) eqn:Hc.
  - destruct IH as (p1 & c' & p2 & -> & H1 & Hc').
    { intros Hp. apply Hn. by constructor. }
    exists (c :: p1), c', p2. split; [done|]. split; [by constructor|done].
  - exists [], c, p. split; [done|]. split; [constructor|done].
Qed.

Lemma while_loop_init_succeeds p :
  Forall (λ c, isascii c = true) p → ¬ starts_with_operator p →
  ∃ self, while_loop p init_fsm = inr self.
Proof.
  intros Hascii Hstart. destruct p as [|c rest]; [by eexists|].
  apply Forall_cons in Hascii as [Hc Hrest].
  destruct (step_succeeds c init_fsm) as [self1 Hstep]; [apply init_fsm_inv|done| |].
  { right. split; intros ->; apply Hstart; [by left|by right]. }
  destruct (step_inv _ _ _ init_fsm_inv Hstep) as [Hinv1 Hlen1].
  destruct (while_loop_succeeds rest self1) as [self2 Hloop];
    [done|rewrite Hlen1; simpl; lia|done|].
  exists self2. cbn [while_loop]. rewrite Hstep. by cbn [mbind exn_bind].
Qed.

Lemma compile_operator_first p :
  starts_with_operator p → compile p = inl IndexError.
Proof. destruct p as [|c p]; intros [[=]|[=]]; by subst. Qed.

Lemma compile_ascii p :
  ¬ starts_with_operator p → Forall (λ c, isascii c = true) p →
  ∃ self, compile p = inr self.
Proof.
  intros Hstart Hascii.
  destruct (while_loop_init_succeeds p Hascii Hstart) as [self0 Hloop].
  destruct (while_loop_inv _ _ _ init_fsm_inv Hloop) as [Hinv _].
  unfold compile. rewrite Hloop. cbn [mbind exn_bind].
  rewrite finish_inv by done. by eexists.
Qed.

Lemma compile_not_ascii p :
  ¬ starts_with_operator p → ¬ Forall (λ c, isascii c = true) p →
  compile p = inl (ValueError "Invalid character").
Proof.
  intros Hstart (p1 & c & p2 & -> & H1 & Hc)%first_non_ascii.
  destruct (while_loop_init_succeeds p1 H1) as [self0 Hloop].
  { intros Hs. apply Hstart. destruct p1; [by destruct Hs|done]. }
  by eapply compile_non_ascii.
Qed.

(** X8: the outcome of a compilation is decided by the first character and
    by the presence of a character that is not ASCII.  A pattern that
    begins with ['*'] or ['+'] raises [IndexError], whatever follows; any
    other pattern raises the invalid-character [ValueError] when one of its
    characters is not ASCII and compiles when all are. *)
Theorem compile_outcome p :
  (compile p = inl IndexError ↔ starts_with_operator p) ∧
  (compile p = inl (ValueError "Invalid character") ↔
     ¬ starts_with_operator p ∧ ¬ Forall (λ c, isascii c = true) p) ∧
  ((∃ self, compile p = inr self) ↔
     ¬ starts_with_operator p ∧ Forall (λ c, isascii c = true) p).
Proof.
  assert (Hdec : starts_with_operator p ∨ ¬ starts_with_operator p).
  { unfold starts_with_operator.
    destruct (decide (head p = Some chr_star)); [by auto|].
    destruct (decide (head p = Some chr_plus)); [by auto|]. right. by intros [?|?]. }
  destruct Hdec as [Hs|Hs].
  - rewrite (compile_operator_first p Hs).
    split; [done|]. split; [split; [done|by intros [? _]]|].
    split; [by intros [? ?]|by intros [? _]].
  - destruct (decide (Forall (λ c, isascii c = true) p)) as [Ha|Ha].
    + destruct (compile_ascii p Hs Ha) as [self Hc]. rewrite Hc.
      split; [done|]. split; [split; [done|by intros [_ ?]]|].
      split; [done|by eexists].
    + rewrite (compile_not_ascii p Hs Ha).
      split; [done|]. split; [done|]. split; [by intros [? ?]|by intros [_ ?]].
Qed.

(** ** The search finds exactly the accepting runs *)

Section search.
Variable h : Store.
Variable s : str.

Lemma for_next_sound (rec : nat → nat → gset (nat * nat) → result (bool * gset (nat * nat)))
    idx ns :
  (∀ state idx' visited visited',
     rec state idx' visited = Return (true, visited') → accepting h s state idx') →
  ∀ visited visited',
    for_next h s rec idx ns visited = Return (true, visited') →
    ∃ c next_state, s !! idx = Some c ∧ next_state ∈ ns ∧
      accepting h s next_state
        (if check_self (kind (h !!! next_state)) c then idx + 1 else idx).
Proof.
  intros Hrec. induction ns as [|n ns IH]; intros visited visited' Hloop; [done|].
  simpl in Hloop. destruct (s !! idx) as [c|] eqn:Hc; [|done].
  assert (Hcons : ∀ r, for_next h s rec idx ns r = Return (true, visited') →
            ∃ c0 n0, Some c = Some c0 ∧ n0 ∈ n :: ns ∧
              accepting h s n0
                (if check_self (kind (h !!! n0)) c0 then idx + 1 else idx)).
  { intros r (c0 & n0 & Hc0 & Hn0 & Hacc)%IH. exists c0, n0.
    split; [done|]. split; [by apply list_elem_of_further|done]. }
  destruct (check_self (kind (h !!! n)) c) eqn:Hchk.
  - destruct (rec n (idx + 1) visited) as [[[] v]| |] eqn:Hcall; try done.
    + exists c, n. split; [done|]. split; [apply list_elem_of_here|].
      rewrite Hchk. by eapply Hrec.
    + by eapply Hcons.
  - destruct (rec n idx visited) as [[[] v]| |] eqn:Hcall; try done.
    + exists c, n. split; [done|]. split; [apply list_elem_of_here|].
      rewrite Hchk. by eapply Hrec.
    + by eapply Hcons.
Qed.

(** A search that answers [True] has followed an accepting run. *)
Lemma dfs_sound fuel : ∀ state idx visited visited',
  dfs h s fuel state idx visited = Return (true, visited') →
  accepting h s state idx.
Proof.
  induction fuel as [|fuel IH]; intros state idx visited visited' Hdfs; [done|].
  rewrite dfs_S in Hdfs. case_decide; [done|]. case_decide as Hend.
  - injection Hdfs as Hex _. subst idx. by apply acc_end.
  - apply for_next_sound in Hdfs as (c & n & Hc & Hn & Hacc); [|apply IH].
    by eapply acc_step.
Qed.

Lemma explored_trans (V V1 V' : gset (nat * nat)) :
  explored h s V V1 → V1 ⊆ V' → explored h s V1 V' → explored h s V V'.
Proof.
  intros H1 Hsub H2 state idx Hin Hnot.
  destruct (decide ((state, idx) ∈ V1)) as [Hin1|Hnin1]; [|by apply H2].
  destruct (H1 state idx Hin1 Hnot) as [Hend Hmove]. split; [done|].
  intros c n Hc Hn. apply Hsub. by eapply Hmove.
Qed.

Lemma for_next_explored (rec : nat → nat → gset (nat * nat) → result (bool * gset (nat * nat)))
    idx ns :
  (∀ state idx' visited visited',
     rec state idx' visited = Return (false, visited') →
     visited ⊆ visited' ∧ (state, idx') ∈ visited' ∧ explored h s visited visited') →
  ∀ visited visited',
    for_next h s rec idx ns visited = Return (false, visited') →
    visited ⊆ visited' ∧
    (∀ c next_state, s !! idx = Some c → next_state ∈ ns →
       (next_state, if check_self (kind (h !!! next_state)) c then idx + 1 else idx)
         ∈ visited') ∧
    explored h s visited visited'.
Proof.
  intros Hrec. induction ns as [|n ns IH]; intros visited visited' Hloop.
  - injection Hloop as <-. split; [done|]. split.
    + intros c n _ Hn. by apply elem_of_nil in Hn.
    + intros state idx' Hin Hnot. done.
  - simpl in Hloop. destruct (s !! idx) as [c|] eqn:Hc; [|done].
    assert (∃ v, rec n (if check_self (kind (h !!! n)) c then idx + 1 else idx) visited
                 = Return (false, v) ∧
                 for_next h s rec idx ns v = Return (false, visited'))
      as (v & Hcall & Hrest).
    { destruct (check_self (kind (h !!! n)) c).
      - destruct (rec n (idx + 1) visited) as [[[] v]| |]; try done. by exists v.
      - destruct (rec n idx visited) as [[[] v]| |]; try done. by exists v. }
    destruct (Hrec _ _ _ _ Hcall) as (Hsub1 & Hin1 & Hex1).
    destruct (IH _ _ Hrest) as (Hsub2 & Hin2 & Hex2).
    split; [set_solver|]. split.
    + intros c' n' [= <-] [->|Hn']%elem_of_cons; [by apply Hsub2|by apply Hin2].
    + by eapply explored_trans.
Qed.

(** A search that answers [False] leaves only dead ends behind. *)
Lemma dfs_explored fuel : ∀ state idx visited visited',
  dfs h s fuel state idx visited = Return (false, visited') →
  visited ⊆ visited' ∧ (state, idx) ∈ visited' ∧ explored h s visited visited'.
Proof.
  induction fuel as [|fuel IH]; intros state idx visited visited' Hdfs; [done|].
  rewrite dfs_S in Hdfs. case_decide as Hin.
  { injection Hdfs as <-. split; [done|]. split; [done|]. by intros ?? ? ?. }
  case_decide as Hend.
  - injection Hdfs as Hex <-. split; [set_solver|]. split; [set_solver|].
    intros st i Hin' Hnot.
    assert ((st, i) = (state, idx)) as [= -> ->] by set_solver.
    split; [done|]. intros c n Hc. subst idx.
    by rewrite lookup_ge_None_2 in Hc.
  - apply for_next_explored in Hdfs as (Hsub & Hmoves & Hex); [|apply IH].
    split; [set_solver|]. split; [set_solver|].
    intros st i Hin' Hnot.
    destruct (decide ((st, i) = (state, idx))) as [[= -> ->]|Hne].
    + split; [done|]. apply Hmoves.
    + apply Hex; [done|set_solver].
Qed.

(** No accepting run starts from a pair of a set of dead ends. *)
Lemma explored_not_accepting (V : gset (nat * nat)) :
  explored h s ∅ V →
  ∀ state idx, accepting h s state idx → (state, idx) ∉ V.
Proof.
  intros Hex state idx Hacc. induction Hacc as [state Hterm|state idx c n Hc Hn _ IH];
    intros Hin; destruct (Hex _ _ Hin) as [Hend Hmove];
    try (by intros ?%elem_of_empty).
  - rewrite Hend in Hterm; done.
  - apply IH. by eapply Hmove.
Qed.

(** The characters left to read on an accepting run are each accepted by
    the target of some edge. *)
Lemma accepting_chars state idx :
  accepting h s state idx →
  ∀ j c, idx ≤ j → s !! j = Some c →
    ∃ t n, n ∈ next_states (h !!! t) ∧ check_self (kind (h !!! n)) c = true.
Proof.
  induction 1 as [state Hterm|state idx c0 n Hc0 Hn _ IH]; intros j c Hj Hc.
  - apply lookup_lt_Some in Hc. lia.
  - destruct (check_self (kind (h !!! n)) c0) eqn:Hchk; [|by eapply IH].
    destruct (decide (j = idx)) as [->|Hne].
    + assert (c = c0) as -> by congruence. by exists state, n.
    + eapply IH; [|done]. lia.
Qed.
End search.

(** X9: on a compiled automaton [check_string] answers [True] exactly when
    an accepting run exists from the start state at position 0.  Marking
    pairs as visited, also those still being explored, never hides a run. *)
Theorem check_string_correct p self s :
  compile p = inr self →
  check_string self s = Return true ↔
  accepting (store self) s (start_state self) 0.
Proof.
  intros [H0 Hlen Hwf _ _ _ _]%compile_compiled.
  destruct (dfs_returns_budget (store self) s Hwf (budget (store self) s)
              (start_state self)) as (b & v & Hdfs); [lia|done|].
  unfold check_string. rewrite Hdfs. destruct b.
  - split; [intros _; by eapply dfs_sound|done].
  - split; [done|]. intros Hacc. exfalso.
    apply dfs_explored in Hdfs as (_ & Hin & Hex).
    by eapply explored_not_accepting.
Qed.

Lemma check_string_correct_witness :
  check_string star_a_fsm (of_string "aa") = Return true ↔
  accepting (store star_a_fsm) (of_string "aa") (start_state star_a_fsm) 0.
Proof.
  apply (check_string_correct (of_string "a*") star_a_fsm). reflexivity.
Defined.

(** X10: every character of an accepted input occurs in the pattern,
    unless the pattern has a ['.']: a character is only ever consumed by a
    state that accepts it, and the states test what the literals and ['.']
    of the pattern test. *)
Theorem accepted_chars p self s c :
  compile p = inr self → check_string self s = Return true → c ∈ s →
  chr_dot ∈ p ∨ c ∈ p.
Proof.
  intros Hc Hchk Hin. unfold check_string in Hchk.
  destruct (dfs _ _ _ _ _ _) as [[[] v]| |] eqn:Hdfs; try done.
  apply dfs_sound in Hdfs. apply list_elem_of_lookup in Hin as [j Hj].
  destruct (accepting_chars _ _ _ _ Hdfs j c) as (t & n & Hn & Htest); [lia|done|].
  destruct (compile_edges_inside p self t n Hc Hn) as [Hn1 Hn2].
  rewrite (compile_length p self Hc) in Hn2.
  destruct (compile_shape p self Hc) as (_ & _ & _ & _ & _ & Hterm).
  destruct (decide (n = S (length p))) as [->|Hne]; [by rewrite Hterm in Htest|].
  destruct n as [|i]; [lia|].
  destruct (compile_tests_atom p self i Hc) as (q & Hq & _ & _ & Heq); [lia|].
  rewrite Heq in Htest. apply check_self_atom in Htest as [->| ->]; auto.
Qed.

Lemma accepted_chars_witness : chr_dot ∈ of_string "a*4.+hi" ∨ 117%N ∈ of_string "a*4.+hi".
Proof.
  apply (accepted_chars (of_string "a*4.+hi") demo_fsm (of_string "4uhi"));
    [reflexivity|by vm_compute|].
  apply list_elem_of_further, list_elem_of_here.
Defined.

(** ** The edge rewrites are local *)

(** An iteration changes the edges of the last two states at most: of the
    last one unless the character is ['+'], of the one before only for an
    operator. *)
Lemma step_touch c self self' j :
  fsm_inv self → step c self = inr self' →
  j + 2 < length (store self) ∨
  (j + 2 = length (store self) ∧ c ≠ chr_star ∧ c ≠ chr_plus) ∨
  (j + 1 = length (store self) ∧ c = chr_plus) →
  next_states (store self' !!! j) = next_states (store self !!! j).
Proof.
  intros Hinv Hstep Hj. pose proof Hinv as [Hst Hne H0 Hwf Hterm Hout].
  remember (length (store self)) as n eqn:Hn.
  assert (Hlast : index_neg (states self) 1 = inr (n - 1)).
  { rewrite Hst, index_neg_seq by lia. case_decide; [done|lia]. }
  assert (Hpred : index_neg (states self) 2 =
                  if decide (2 ≤ n) then inr (n - 2) else inl IndexError).
  { rewrite Hst. apply index_neg_seq. lia. }
  destruct (char_cases c) as [(Hc & Hs & Hp & Hd)|[->|[->|[->|Hc]]]].
  - rewrite step_plain, Hlast in Hstep by done. simpl in Hstep.
    injection Hstep as <-. cbn [store].
    rewrite next_extend_next_ne by (destruct Hj as [?|[[? _]|[_ ?]]]; [lia|lia|done]).
    by rewrite lookup_alloc_old by lia.
  - rewrite step_dot, Hlast in Hstep. simpl in Hstep.
    injection Hstep as <-. cbn [store].
    rewrite next_extend_next_ne by (destruct Hj as [?|[[? _]|[_ ?]]]; [lia|lia|done]).
    by rewrite lookup_alloc_old by lia.
  - rewrite step_star, Hlast in Hstep. cbn [mbind exn_bind] in Hstep.
    rewrite Hpred in Hstep.
    case_decide as Hn2; [|done]. cbn [mbind exn_bind mret exn_ret] in Hstep.
    injection Hstep as <-. cbn [store]. rewrite <- Hn.
    assert (j + 2 < n) by (destruct Hj as [?|[(_ & ? & _)|[_ ?]]]; done).
    rewrite !next_extend_next_ne by lia.
    by rewrite lookup_alloc_old by lia.
  - rewrite step_plus, Hlast in Hstep. cbn [mbind exn_bind] in Hstep.
    rewrite Hpred in Hstep.
    case_decide as Hn2; [|done]. cbn [mbind exn_bind mret exn_ret] in Hstep.
    injection Hstep as <-. cbn [store]. rewrite <- Hn.
    assert (j ≠ n - 2 ∧ j < n) as [? ?]
      by (destruct Hj as [?|[(_ & _ & ?)|[? _]]]; [lia|done|lia]).
    rewrite !next_extend_next_ne by lia.
    by rewrite lookup_alloc_old by lia.
  - by rewrite step_not_ascii in Hstep.
Qed.

Lemma while_loop_local p : ∀ self self' j,
  fsm_inv self → while_loop p self = inr self' →
  j + 2 < length (store self) →
  next_states (store self' !!! j) = next_states (store self !!! j).
Proof.
  induction p as [|c p IH]; intros self self' j Hinv Hloop Hj; simpl in Hloop.
  - by injection Hloop as <-.
  - destruct (step c self) as [e|self1] eqn:Hstep; [done|].
    cbn [mbind exn_bind] in Hloop.
    destruct (step_inv _ _ _ Hinv Hstep) as [Hinv1 Hlen1].
    rewrite (IH _ _ j Hinv1 Hloop) by lia.
    apply (step_touch c self self1 j Hinv Hstep). by left.
Qed.

Lemma finish_local (h : Store) j :
  j + 1 < length h →
  next_states (extend_next (length h - 1) [length h]
                 (h ++ [mkState TerminationState []]) !!! j)
  = next_states (h !!! j).
Proof.
  intros Hj. rewrite next_extend_next_ne by lia. by rewrite lookup_alloc_old by lia.
Qed.

(** X11: the edges of a state are final once two more states have been
    created: for every index [j] with [j + 1 < len(p1)], the state of
    index [j] has in the automaton of [p1 ++ p2] exactly the edges it has
    in the automaton of [p1].  The bound is tight; the state of index
    [len(p1) - 1] gets a new edge when [p2] starts with an operator. *)
Theorem compile_local p1 p2 self1 self2 j :
  compile p1 = inr self1 → compile (p1 ++ p2) = inr self2 →
  j + 1 < length p1 →
  next_states (store self2 !!! j) = next_states (store self1 !!! j).
Proof.
  intros (s1 & Hloop1 & Hinv1 & Hlen1 & ->)%compile_inv
         (s2 & Hloop2 & Hinv2 & Hlen2 & ->)%compile_inv Hj.
  rewrite while_loop_app, Hloop1 in Hloop2. cbn [mbind exn_bind] in Hloop2.
  simpl in Hlen1. cbn [store].
  destruct (while_loop_inv _ _ _ Hinv1 Hloop2) as [_ Hlen12].
  rewrite !finish_local by lia.
  apply (while_loop_local p2 s1 s2 j Hinv1 Hloop2). lia.
Qed.

Lemma compile_local_witness :
  next_states (store demo_fsm !!! 0) = next_states (store star_a_fsm !!! 0).
Proof.
  apply (compile_local (of_string "a*") (of_string "4.+hi"));
    [reflexivity|reflexivity|simpl; lia].
Defined.

(** ** The pairs the search marks *)

Section marks.
Variable h : Store.
Variable s : str.
Hypothesis Hwf : store_wf h.

Lemma for_next_within (rec : nat → nat → gset (nat * nat) → result (bool * gset (nat * nat)))
    idx ns :
  (∀ state idx' visited b visited',
     state < length h → idx' ≤ length s → visited ⊆ configs h s →
     rec state idx' visited = Return (b, visited') → visited' ⊆ configs h s) →
  Forall (λ r, r < length h) ns →
  ∀ visited b visited', visited ⊆ configs h s →
    for_next h s rec idx ns visited = Return (b, visited') →
    visited' ⊆ configs h s.
Proof.
  intros Hrec. induction ns as [|n ns IH]; intros Hns visited b visited' Hsub Hloop.
  - by injection Hloop as _ <-.
  - apply Forall_cons in Hns as [Hn Hns]. simpl in Hloop.
    destruct (s !! idx) as [c|] eqn:Hc; [|done].
    apply lookup_lt_Some in Hc.
    destruct (check_self (kind (h !!! n)) c).
    + destruct (rec n (idx + 1) visited) as [[[] v]| |] eqn:Hcall; try done.
      * injection Hloop as _ <-. eapply (Hrec n (idx + 1)); [done|lia|done|done].
      * eapply (IH Hns v); [|done]. eapply (Hrec n (idx + 1)); [done|lia|done|done].
    + destruct (rec n idx visited) as [[[] v]| |] eqn:Hcall; try done.
      * injection Hloop as _ <-. eapply (Hrec n idx); [done|lia|done|done].
      * eapply (IH Hns v); [|done]. eapply (Hrec n idx); [done|lia|done|done].
Qed.

(** Every pair the search marks is a state of the store with a position of
    the input, its end included. *)
Lemma dfs_within fuel : ∀ state idx visited b visited',
  state < length h → idx ≤ length s → visited ⊆ configs h s →
  dfs h s fuel state idx visited = Return (b, visited') →
  visited' ⊆ configs h s.
Proof.
  induction fuel as [|fuel IH]; intros state idx visited b visited' Hst Hidx Hsub Hdfs;
    [done|].
  rewrite dfs_S in Hdfs. case_decide as Hin.
  { by injection Hdfs as _ <-. }
  assert ({[(state, idx)]} ∪ visited ⊆ configs h s) as Hsub'.
  { apply union_subseteq. split; [|done].
    apply singleton_subseteq_l, elem_of_configs. lia. }
  case_decide as Hend.
  - by injection Hdfs as _ <-.
  - eapply for_next_within; [apply IH| |apply Hsub'|apply Hdfs].
    apply Forall_forall. intros x Hx. by apply (Hwf state).
Qed.
End marks.

(** X12: a search on a compiled automaton marks at most
    [(len(pattern) + 2) * (len(input) + 1)] pairs, whatever its answer: the
    marked pairs are states of the automaton with positions of the input. *)
Theorem dfs_marks_bounded p self s fuel b visited :
  compile p = inr self →
  dfs (store self) s fuel (start_state self) 0 ∅ = Return (b, visited) →
  size visited ≤ (length p + 2) * (length s + 1).
Proof.
  intros Hc Hdfs. pose proof (compile_length p self Hc) as Hlen.
  destruct (compile_compiled _ _ Hc) as [H0 _ Hwf _ _ _ _].
  apply dfs_within in Hdfs; [|done|lia|lia|set_solver].
  etrans; [by apply subseteq_size|]. rewrite <- Hlen. apply size_configs.
Qed.

Lemma dfs_marks_bounded_witness :
  size (list_to_set [(6, 2); (8, 2); (2, 0); (6, 1); (6, 3); (8, 1); (4, 1);
                     (8, 3); (0, 0); (5, 2); (5, 4); (7, 2); (3, 0); (1, 0);
                     (5, 1); (5, 3); (7, 1); (7, 3)] : gset (nat * nat))
  ≤ (7 + 2) * (4 + 1).
Proof.
  apply (dfs_marks_bounded (of_string "a*4.+hi") demo_fsm (of_string "meow") 46 false);
    [reflexivity|by vm_compute].
Defined.

(** ** The state wrapped by a plus *)

(** The state created for a literal or for ['.'] starts without edges. *)
Lemma step_atom_new c self self' :
  fsm_inv self → step c self = inr self' → c ≠ chr_star → c ≠ chr_plus →
  next_states (store self' !!! length (store self)) = [].
Proof.
  intros Hinv Hstep Hs Hp. pose proof Hinv as [Hst Hne H0 Hwf Hterm Hout].
  assert (Hlast : index_neg (states self) 1 = inr (length (store self) - 1)).
  { rewrite Hst, index_neg_seq by lia. case_decide; [done|lia]. }
  destruct (char_cases c) as [(Hc & _ & _ & _)|[->|[->|[->|Hc]]]]; try done.
  - rewrite step_plain, Hlast in Hstep by done. simpl in Hstep.
    injection Hstep as <-. cbn [store].
    rewrite next_extend_next_ne by lia. by rewrite lookup_alloc_new.
  - rewrite step_dot, Hlast in Hstep. simpl in Hstep.
    injection Hstep as <-. cbn [store].
    rewrite next_extend_next_ne by lia. by rewrite lookup_alloc_new.
  - by rewrite step_not_ascii in Hstep.
Qed.

(** X13: the state of a literal or of ['.'] that is followed by ['+'] has no
    outgoing edge in the compiled automaton, unless that ['+'] is itself
    followed by an operator: the edge from its predecessor is given to the
    [PlusState] only, and later characters link from the [PlusState] on. *)
Theorem plus_base_dead p1 q p3 self :
  compile (p1 ++ q :: chr_plus :: p3) = inr self →
  q ≠ chr_star → q ≠ chr_plus →
  (∀ c, head p3 = Some c → c ≠ chr_star ∧ c ≠ chr_plus) →
  next_states (store self !!! S (length p1)) = [].
Proof.
  intros (s4 & Hloop & Hinv4 & Hlen4 & ->)%compile_inv Hqs Hqp Hhead.
  rewrite while_loop_app in Hloop.
  destruct (while_loop p1 init_fsm) as [e|s1] eqn:H1; [done|].
  cbn [mbind exn_bind while_loop] in Hloop.
  destruct (while_loop_inv _ _ _ init_fsm_inv H1) as [Hinv1 Hlen1].
  change (length (store init_fsm)) with 1 in Hlen1.
  destruct (step q s1) as [e|s2] eqn:H2; [done|]. cbn [mbind exn_bind] in Hloop.
  destruct (step_inv _ _ _ Hinv1 H2) as [Hinv2 Hlen2].
  destruct (step chr_plus s2) as [e|s3] eqn:H3; [done|]. cbn [mbind exn_bind] in Hloop.
  destruct (step_inv _ _ _ Hinv2 H3) as [Hinv3 Hlen3].
  destruct (while_loop_inv _ _ _ Hinv3 Hloop) as [_ Hlen34].
  cbn [store]. rewrite finish_local by lia.
  assert (next_states (store s4 !!! S (length p1))
          = next_states (store s3 !!! S (length p1))) as ->.
  { destruct p3 as [|c p3]; simpl in Hloop.
    - by injection Hloop as <-.
    - destruct (step c s3) as [e|s3'] eqn:H3'; [done|]. cbn [mbind exn_bind] in Hloop.
      destruct (step_inv _ _ _ Hinv3 H3') as [Hinv3' Hlen3'].
      rewrite (while_loop_local p3 s3' s4 (S (length p1)) Hinv3' Hloop) by lia.
      apply (step_touch c s3 s3' _ Hinv3 H3'). right; left.
      split; [lia|]. by apply Hhead. }
  rewrite (step_touch chr_plus s2 s3 (S (length p1)) Hinv2 H3)
    by (right; right; split; [lia|done]).
  replace (S (length p1)) with (length (store s1)) by lia.
  by apply (step_atom_new q s1 s2).
Qed.

Lemma plus_base_dead_witness : next_states (store demo_fsm !!! 4) = [].
Proof.
  apply (plus_base_dead (of_string "a*4") chr_dot (of_string "hi") demo_fsm);
    [reflexivity|discriminate|discriminate|].
  intros c [= <-]. split; discriminate.
Defined.

(** ** Patterns without operators, input by input *)

(** X14: on a pattern of ASCII characters without ['*'] and ['+'] the
    matcher computes [walk]: it goes through the pattern once, consuming an
    input character at each position that accepts it and passing the
    others without consuming.  Hence every string that has the length of
    the pattern and agrees with it at every position other than ['.'] is
    accepted. *)
Theorem plain_match_walk p s :
  plain p →
  ∃ self, compile p = inr self ∧
    check_string self s = Return (walk p s) ∧
    (matches_exactly p s → check_string self s = Return true).
Proof.
  intros Hp. eexists. split; [by apply compile_plain|].
  rewrite (check_string_plain p _ s Hp (compile_plain p Hp)).
  split; [done|]. intros Hm. by rewrite walk_exact.
Qed.

Lemma plain_match_walk_witness :
  plain (of_string "a.c") ∧
  ∃ self, compile (of_string "a.c") = inr self ∧
    check_string self (of_string "axc") = Return (walk (of_string "a.c") (of_string "axc")) ∧
    (matches_exactly (of_string "a.c") (of_string "axc") →
     check_string self (of_string "axc") = Return true).
Proof.
  split; [solve_plain|]. apply (plain_match_walk (of_string "a.c") (of_string "axc")).
  solve_plain.
Defined.

(** ** The search is finite *)

(** X15: on a compiled automaton the search is finite and reads the input
    inside its bounds only.  When the interpreter has room for
    [n * (len(input) + 1) + 1] nested calls of [dfs], [n] being the number
    of states with the termination state, [check_string] returns a
    boolean, the answer of the search: [dfs] raises no [IndexError] and
    does not recurse deeper than that. *)
Theorem search_is_finite p self s limit :
  compile p = inr self →
  budget (store self) s ≤ limit →
  ∃ b, check_string self s = Return b ∧
       check_string_limited limit self s = Return b.
Proof.
  intros [H0 Hlen Hwf _ _ _ _]%compile_compiled Hlimit.
  destruct (dfs_returns_budget (store self) s Hwf (budget (store self) s)
              (start_state self)) as (b & v & Hdfs); [lia|done|].
  exists b. unfold check_string, check_string_limited.
  rewrite (dfs_fuel_mono _ _ _ _ _ _ _ _ Hlimit Hdfs). by rewrite Hdfs.
Qed.

Lemma search_is_finite_witness :
  ∃ b, check_string star_a_fsm (of_string "aab") = Return b ∧
       check_string_limited 20 star_a_fsm (of_string "aab") = Return b.
Proof.
  apply (search_is_finite (of_string "a*") star_a_fsm (of_string "aab") 20);
    [reflexivity|vm_compute; lia].
Defined.
